(** * selenium-webdriver/edge.js: Options, ServiceBuilder, the default
      service and the Driver facade, as a shallow embedding.

    JavaScript objects live in a heap and are passed by reference, so that
    "returns the same instance", in-place mutation of a capabilities object
    and "the input is not modified" can be stated.  Code that may throw is
    written in a state-and-exception monad over the world (heap, the module
    variable [defaultService], and the trace of calls made on the external
    collaborators).  A thrown exception keeps the world reached so far. *)

From stdpp Require Import gmap strings list fin_maps pretty.
From Stdlib Require Import ZArith Ascii.

Open Scope Z_scope.

(** ** JavaScript values *)

(** Heap addresses: the index of the object in the heap. *)
Abbreviation loc := nat.

(** The values that capability maps and option objects hold.  Numbers are
    integers here; an object is a reference. *)
Inductive value :=
| VUndefined
| VNull
| VBool (b : bool)
| VNum (n : Z)
| VStr (s : string)
| VRef (l : loc).

(** ToBoolean: what [if (v)], [!v] and [a || b] look at. *)
Definition to_boolean (v : value) : bool :=
  match v with
  | VUndefined | VNull => false
  | VBool b => b
  | VNum n => negb (n =? 0)
  | VStr s => negb (bool_decide (s = ""))
  | VRef _ => true
  end.

(** [v != null]: false exactly for [null] and [undefined]. *)
Definition neq_null (v : value) : bool :=
  match v with
  | VUndefined | VNull => false
  | _ => true
  end.

(** Lower-casing of the letters A to Z, every other character being kept:
    what [String.prototype.toLowerCase] does on a string of ASCII characters.
    The built-in itself, which knows all of Unicode, is a parameter of the
    embedding (see [toLowerCase] below). *)
Definition lower_ascii (c : ascii) : ascii :=
  let n := nat_of_ascii c in
  if ((65 <=? n) && (n <=? 90))%nat then ascii_of_nat (n + 32) else c.

Fixpoint lower_ascii_string (s : string) : string :=
  match s with
  | EmptyString => EmptyString
  | String c s' => String (lower_ascii c) (lower_ascii_string s')
  end.

(** The string holds ASCII characters only. *)
Fixpoint is_ascii_string (s : string) : bool :=
  match s with
  | EmptyString => true
  | String c s' => (nat_of_ascii c <? 128)%nat && is_ascii_string s'
  end.

(** What is taken for granted of the built-in [String.prototype.toLowerCase]:
    on a string of ASCII characters it lower-cases the letters A to Z and
    keeps every other character.  Nothing is said of other strings. *)
Definition toLowerCase_on_ascii (toLowerCase : string → string) : Prop :=
  ∀ s, is_ascii_string s = true → toLowerCase s = lower_ascii_string s.

Definition is_upper (c : ascii) : bool :=
  let n := nat_of_ascii c in ((65 <=? n) && (n <=? 90))%nat.

Fixpoint has_upper (s : string) : bool :=
  match s with
  | EmptyString => false
  | String c s' => is_upper c || has_upper s'
  end.

(** ** Errors, promises, events *)

Inductive Error :=
| JsError (msg : string)      (* [throw Error(msg)] *)
| TypeError (msg : string).   (* a method called on an object without it *)

(** A promise, by the outcome it settles with. *)
Inductive Promise :=
| Fulfilled (v : value)
| Rejected (e : Error).

(** Calls made on the external collaborators, in the order they happen. *)
Inductive Event :=
| EvHas (capabilities : loc) (key : string)             (* has(key) *)
| EvGet (capabilities : loc) (key : string)             (* get(key) *)
| EvSet (capabilities : loc) (key : string) (v : value) (* set(key, v) *)
| EvFindFreePort (port : Z)                 (* portprober.findFreePort() *)
| EvStart (service : loc)                   (* service.start() *)
| EvKill (service : loc)                    (* service.kill() *)
| EvCreateExecutor (service : loc)          (* executors.createExecutor *)
| EvCreateSession (executor capabilities : loc) (* WebDriver.createSession *)
| EvSessionQuit (driver : loc).             (* the inherited quit() *)

(** [e] is a [has] or a [get] call on the object [capabilities]. *)
Definition is_read_of (capabilities : loc) (e : Event) : bool :=
  match e with
  | EvHas l _ | EvGet l _ => bool_decide (l = capabilities)
  | _ => false
  end.

(** ** The constants of the module *)

Definition EDGEDRIVER_EXE : string := "MicrosoftWebDriver.exe".

(** [CAPABILITY_KEY], an enum object: property name and value. *)
Definition CAPABILITY_KEY : list (string * string) :=
  [("PAGE_LOAD_STRATEGY", "pageLoadStrategy")].

Definition PAGE_LOAD_STRATEGY : string := "pageLoadStrategy".

(** ** webdriver.Capabilities *)

(** Modelled from the spec: the class webdriver.Capabilities and the constant
    webdriver.Capability.PROXY are defined in ./index, which is not part of
    the sources.  The spec gives the interface only: a capabilities map
    "supports has(key), get(key), set(key, value)", and the factory
    Capabilities.edge() "produces a default capabilities map pre-populated
    with the target browser's identity marker".  The code of edge.js is
    embedded over this interface. *)
Class Capabilities (C : Type) := {
  PROXY : string;
  caps_edge : C;
  caps_has : C → string → bool;
  caps_get : C → string → value;
  caps_set : C → string → value → C;
}.

(** Modelled from the spec: "Capabilities map: mapping from capability name
    to value", what [set] is expected to do to what [has] and [get] answer. *)
Record CapabilitiesLaws {C : Type} `{Capabilities C} : Prop := {
  caps_get_set : ∀ c k v, caps_get (caps_set c k v) k = v;
  caps_has_set : ∀ c k v, caps_has (caps_set c k v) k = true;
  caps_get_set_ne : ∀ c k k' v, k ≠ k' →
    caps_get (caps_set c k v) k' = caps_get c k';
  caps_has_set_ne : ∀ c k k' v, k ≠ k' →
    caps_has (caps_set c k v) k' = caps_has c k';
}.
Arguments CapabilitiesLaws C {_}.

(** Modelled from the spec: the capabilities map as a finite map from names
    to values; [has] is membership, [get] the stored value ([null] when there
    is none), [set] stores, and the default Edge map holds the browser
    identity marker only. *)
Definition MapCapabilities : Capabilities (gmap string value) := {|
  PROXY := "proxy";
  caps_edge := {["browserName" := VStr "MicrosoftEdge"]};
  caps_has := λ c k, bool_decide (is_Some (c !! k));
  caps_get := λ c k, default VNull (c !! k);
  caps_set := λ c k v, <[k := v]> c;
|}.

(** ** External collaborators *)

(** What the process environment answers: [io.findInPath(file, checkCwd)]
    (a path or null), [fs.existsSync(path)], the port that
    [portprober.findFreePort()] resolves to, and the outcomes of the inherited
    session quit and of [service.kill()]; the last three may depend on the
    calls made so far. *)
Record Env := {
  io_findInPath : string → bool → option string;
  fs_existsSync : string → bool;
  portprober_findFreePort : list Event → Z;
  webdriver_quit_outcome : list Event → Promise;
  service_kill_outcome : list Event → Promise;
}.

(** ** Objects *)

Record Options := {
  options_ : gmap string value;    (* this.options_ = {} *)
  proxy_ : value;                  (* this.proxy_ = null *)
}.

Inductive Stdio :=
| StdioName (s : string)
| StdioList (l : list value).

Record ServiceBuilder := {
  exe_ : string;
  args_ : list string;
  path_ : option string;
  port_ : Z;
  stdio_ : Stdio;
  env_ : option (gmap string string);
}.

(** Modelled from the spec: remote.DriverService (./remote, not part of the
    sources), the "driver-service construct [that] takes (executablePath,
    {loopback, path, port, args, env, stdio}) and exposes start(), kill(),
    and isRunning()".  The record holds what the constructor is given and
    whether the service reports itself running.  Deferred values (the probed
    port, the argument list) are held by the value they resolve to. *)
Record DriverService := {
  ds_exe : string;
  ds_loopback : bool;
  ds_path : option string;
  ds_port : Z;
  ds_args : list string;
  ds_env : option (gmap string string);
  ds_stdio : Stdio;
  ds_running : bool;
}.

Record Driver := {
  drv_service : loc;       (* [service], captured by the quit closure *)
  drv_executor : loc;      (* the service the executor is bound to *)
  drv_capabilities : loc;
  drv_flow : option nat;
}.

(** How a call ends: with a value, or with a thrown exception. *)
Inductive Completion (A : Type) :=
| Normal (a : A)
| Throw (e : Error).
Arguments Normal {A} a.
Arguments Throw {A} e.

Section Embedding.

Context {C : Type} `{Capabilities C}.
Variable env : Env.

(** [String.prototype.toLowerCase], a built-in of the language that is aware
    of all of Unicode: a parameter. *)
Variable toLowerCase : string → string.

Inductive Obj :=
| OOptions (o : Options)
| OCapabilities (c : C)
| OServiceBuilder (b : ServiceBuilder)
| ODriverService (s : DriverService)
| ODriver (d : Driver).

Record World := {
  heap : list Obj;
  defaultService : option loc;     (* [var defaultService = null] *)
  trace : list Event;
}.

Definition set_heap (h : list Obj) (w : World) : World :=
  {| heap := h; defaultService := defaultService w; trace := trace w |}.

Definition set_defaultService (d : option loc) (w : World) : World :=
  {| heap := heap w; defaultService := d; trace := trace w |}.

Definition add_event (e : Event) (w : World) : World :=
  {| heap := heap w; defaultService := defaultService w;
     trace := trace w ++ [e] |}.

(** ** The monad *)

Definition M (A : Type) : Type := World → Completion A * World.

Definition ret {A} (a : A) : M A := λ w, (Normal a, w).

Definition bind {A B} (m : M A) (f : A → M B) : M B :=
  λ w, match m w with
       | (Normal a, w') => f a w'
       | (Throw e, w') => (Throw e, w')
       end.

Definition throw {A} (e : Error) : M A := λ w, (Throw e, w).

Notation "x <- m ;; k" := (bind m (λ x, k))
  (at level 100, m at next level, right associativity).
Notation "m ;;; k" := (bind m (λ _, k))
  (at level 100, right associativity).

Definition get_obj (l : loc) : M Obj :=
  λ w, match heap w !! l with
       | Some o => (Normal o, w)
       | None => (Throw (TypeError "not an object"), w)
       end.

Definition put_obj (l : loc) (o : Obj) : M unit :=
  λ w, (Normal tt, set_heap (<[l := o]> (heap w)) w).

(** [new]: the object is stored at the next free address. *)
Definition alloc (o : Obj) : M loc :=
  λ w, (Normal (length (heap w)), set_heap (heap w ++ [o]) w).

Definition emit (e : Event) : M unit := λ w, (Normal tt, add_event e w).

Definition get_trace : M (list Event) := λ w, (Normal (trace w), w).

Fixpoint forEach {A} (l : list A) (f : A → M unit) : M unit :=
  match l with
  | [] => ret tt
  | x :: l' => f x ;;; forEach l' f
  end.

Definition get_options (l : loc) : M Options :=
  o <- get_obj l ;;
  match o with
  | OOptions x => ret x
  | _ => throw (TypeError "not an Options")
  end.

Definition get_capabilities (l : loc) : M C :=
  o <- get_obj l ;;
  match o with
  | OCapabilities c => ret c
  | _ => throw (TypeError "not a Capabilities")
  end.

Definition get_builder (l : loc) : M ServiceBuilder :=
  o <- get_obj l ;;
  match o with
  | OServiceBuilder b => ret b
  | _ => throw (TypeError "not a ServiceBuilder")
  end.

Definition get_service (l : loc) : M DriverService :=
  o <- get_obj l ;;
  match o with
  | ODriverService s => ret s
  | _ => throw (TypeError "not a DriverService")
  end.

Definition get_driver (l : loc) : M Driver :=
  o <- get_obj l ;;
  match o with
  | ODriver d => ret d
  | _ => throw (TypeError "not a Driver")
  end.

(** ** Methods of the capabilities object *)

(** Each call is recorded in the trace; a call on an object that is not a
    capabilities map throws before anything is recorded. *)

Definition Capabilities_has (this : loc) (key : string) : M bool :=
  c <- get_capabilities this ;;
  emit (EvHas this key) ;;;
  ret (caps_has c key).

Definition Capabilities_get (this : loc) (key : string) : M value :=
  c <- get_capabilities this ;;
  emit (EvGet this key) ;;;
  ret (caps_get c key).

Definition Capabilities_set (this : loc) (key : string) (v : value) : M loc :=
  c <- get_capabilities this ;;
  emit (EvSet this key v) ;;;
  put_obj this (OCapabilities (caps_set c key v)) ;;;
  ret this.

(** Modelled from the spec: webdriver.Capabilities.edge() (./index, not part
    of the sources), which "produces a default capabilities map": a new
    object holding the default Edge map. *)
Definition Capabilities_edge : M loc := alloc (OCapabilities caps_edge).

(** ** Options *)

(** [new Options()] *)
Definition Options_new : M loc :=
  alloc (OOptions {| options_ := ∅; proxy_ := VNull |}).

(** [this.options_[key] = v] *)
Definition options_store (this : loc) (key : string) (v : value) : M unit :=
  o <- get_options this ;;
  put_obj this
    (OOptions {| options_ := <[key := v]> (options_ o); proxy_ := proxy_ o |}).

Definition setProxy (this : loc) (proxy : value) : M loc :=
  o <- get_options this ;;
  put_obj this (OOptions {| options_ := options_ o; proxy_ := proxy |}) ;;;
  ret this.

Definition setPageLoadStrategy (this : loc) (pageLoadStrategy : string)
  : M loc :=
  options_store this PAGE_LOAD_STRATEGY (VStr (toLowerCase pageLoadStrategy)) ;;;
  ret this.

Definition fromCapabilities (capabilities : loc) : M loc :=
  options <- Options_new ;;
  forEach CAPABILITY_KEY (λ entry,
    let key := snd entry in
    present <- Capabilities_has capabilities key ;;
    if present : bool then
      v <- Capabilities_get capabilities key ;;
      options_store options key v
    else ret tt) ;;;
  present <- Capabilities_has capabilities PROXY ;;
  (if present : bool then
     v <- Capabilities_get capabilities PROXY ;;
     setProxy options v ;;; ret tt
   else ret tt) ;;;
  ret options.

(** [Object.keys(this.options_)] is taken in the order in which the map
    enumerates its keys. *)
Definition toCapabilities (this : loc) (opt_capabilities : option loc)
  : M loc :=
  capabilities <- match opt_capabilities with
                  | Some c => ret c
                  | None => Capabilities_edge
                  end ;;
  o <- get_options this ;;
  (if to_boolean (proxy_ o) then
     Capabilities_set capabilities PROXY (proxy_ o) ;;; ret tt
   else ret tt) ;;;
  forEach (map_to_list (options_ o)).*1 (λ key,
    o' <- get_options this ;;
    Capabilities_set capabilities key (default VUndefined (options_ o' !! key)) ;;;
    ret tt) ;;;
  ret capabilities.

(** The [set] calls that put the proxy, when one is stored, and then every
    settings entry of [o] on the object [capabilities]. *)
Definition merge_calls (capabilities : loc) (o : Options) : list Event :=
  (if to_boolean (proxy_ o) then [EvSet capabilities PROXY (proxy_ o)]
   else []) ++
  map (λ kv, EvSet capabilities kv.1 kv.2) (map_to_list (options_ o)).

(** What [has] and [get] answer on [c'] when [c'] is the map [c] with the
    proxy and the settings of [o] set on it: every settings entry is there,
    the proxy is there when one is stored (and no setting is keyed like it),
    and every other key answers as on [c]. *)
Definition merged_onto (o : Options) (c c' : C) : Prop :=
  (∀ k v, options_ o !! k = Some v →
          caps_get c' k = v ∧ caps_has c' k = true) ∧
  (to_boolean (proxy_ o) = true → options_ o !! PROXY = None →
   caps_get c' PROXY = proxy_ o ∧ caps_has c' PROXY = true) ∧
  (∀ k, options_ o !! k = None →
        (k = PROXY → to_boolean (proxy_ o) = false) →
        caps_get c' k = caps_get c k ∧ caps_has c' k = caps_has c k).

(** The [for (var key in this.options_)] loop of [serialize], over the
    entries still to visit, [json] being the object built so far. *)
Fixpoint serialize_loop (entries : list (string * value))
    (json : gmap string value) : gmap string value :=
  match entries with
  | [] => json
  | (key, v) :: rest =>
      serialize_loop rest (if neq_null v then <[key := v]> json else json)
  end.

Definition serialize (this : loc) : M (gmap string value) :=
  o <- get_options this ;;
  ret (serialize_loop (map_to_list (options_ o)) ∅).

(** ** ServiceBuilder *)

(** [a || b] on nullable strings: the empty string is falsy too. *)
Definition str_or (a b : option string) : option string :=
  match a with
  | Some s => if bool_decide (s = "") then b else Some s
  | None => b
  end.

Definition exe_not_found_message : string :=
  "The " +:+ EDGEDRIVER_EXE +:+ " could not be found on the current PATH. " +:+
  "Please download the latest version of the MicrosoftEdgeDriver from " +:+
  "https://www.microsoft.com/en-us/download/details.aspx?id=48212 and " +:+
  "ensure it can be found on your PATH.".

(** [new ServiceBuilder(opt_exe)].  The object under construction is
    unreachable when the constructor throws, so it is stored on success
    only.  [path_], [port_] and [env_] are the prototype's defaults. *)
Definition ServiceBuilder_new (opt_exe : option string) : M loc :=
  match str_or opt_exe (io_findInPath env EDGEDRIVER_EXE true) with
  | None => throw (JsError exe_not_found_message)
  | Some exe =>
      if bool_decide (exe = "") then throw (JsError exe_not_found_message)
      else if negb (fs_existsSync env exe) then
        throw (JsError ("File does not exist: " +:+ exe))
      else
        alloc (OServiceBuilder
                 {| exe_ := exe; args_ := []; path_ := None; port_ := 0;
                    stdio_ := StdioName "ignore"; env_ := None |})
  end.

Definition setStdio (this : loc) (config : Stdio) : M loc :=
  b <- get_builder this ;;
  put_obj this (OServiceBuilder
    {| exe_ := exe_ b; args_ := args_ b; path_ := path_ b; port_ := port_ b;
       stdio_ := config; env_ := env_ b |}) ;;;
  ret this.

Definition usingPort (this : loc) (port : Z) : M loc :=
  if port <? 0 then throw (JsError ("port must be >= 0: " +:+ pretty port))
  else
    b <- get_builder this ;;
    put_obj this (OServiceBuilder
      {| exe_ := exe_ b; args_ := args_ b; path_ := path_ b; port_ := port;
         stdio_ := stdio_ b; env_ := env_ b |}) ;;;
    ret this.

Definition withEnvironment (this : loc) (e : gmap string string) : M loc :=
  b <- get_builder this ;;
  put_obj this (OServiceBuilder
    {| exe_ := exe_ b; args_ := args_ b; path_ := path_ b; port_ := port_ b;
       stdio_ := stdio_ b; env_ := Some e |}) ;;;
  ret this.

(** Modelled from the spec: portprober.findFreePort() (./net/portprober, not
    part of the sources), which "returns an available local port number";
    the call is recorded, and the port is the one the environment answers. *)
Definition findFreePort : M Z :=
  t <- get_trace ;;
  let port := portprober_findFreePort env t in
  emit (EvFindFreePort port) ;;; ret port.

(** Modelled from the spec: the constructor of remote.DriverService
    (./remote, not part of the sources): "returns a new service descriptor
    ... the process is not started here". *)
Definition DriverService_new (exe : string) (path : option string) (port : Z)
    (args : list string) (e : option (gmap string string)) (stdio : Stdio)
  : M loc :=
  alloc (ODriverService
    {| ds_exe := exe; ds_loopback := true; ds_path := path; ds_port := port;
       ds_args := args; ds_env := e; ds_stdio := stdio;
       ds_running := false |}).

Definition build (this : loc) : M loc :=
  b <- get_builder this ;;
  port <- (if port_ b =? 0 then findFreePort else ret (port_ b)) ;;
  let args := args_ b in
  DriverService_new (exe_ b) (path_ b) port
    (args ++ ["--port=" +:+ pretty port]) (env_ b) (stdio_ b).

(** ** remote.DriverService *)

Definition set_running (r : bool) (s : DriverService) : DriverService :=
  {| ds_exe := ds_exe s; ds_loopback := ds_loopback s; ds_path := ds_path s;
     ds_port := ds_port s; ds_args := ds_args s; ds_env := ds_env s;
     ds_stdio := ds_stdio s; ds_running := r |}.

(** Modelled from the spec: isRunning() of remote.DriverService (./remote,
    not part of the sources), by which the service "reports itself
    running". *)
Definition DriverService_isRunning (this : loc) : M bool :=
  s <- get_service this ;; ret (ds_running s).

(** Modelled from the spec: start() of remote.DriverService (./remote, not
    part of the sources), "start() → endpoint"; the call is recorded, the
    service is running from then on ("SET (not running) → SET (running)"),
    and the result stands for its endpoint. *)
Definition DriverService_start (this : loc) : M loc :=
  s <- get_service this ;;
  emit (EvStart this) ;;;
  put_obj this (ODriverService (set_running true s)) ;;;
  ret this.

(** Modelled from the spec: kill() of remote.DriverService (./remote, not
    part of the sources), which terminates the driver-service process; the
    call is recorded, the service is not running from then on, and the
    promise settles as the environment says. *)
Definition DriverService_kill (this : loc) : M Promise :=
  s <- get_service this ;;
  t <- get_trace ;;
  emit (EvKill this) ;;;
  put_obj this (ODriverService (set_running false s)) ;;;
  ret (service_kill_outcome env t).

(** ** The default service *)

Definition still_running_message : string :=
  "The previously configured EdgeDriver service is still running. " +:+
  "You must shut it down before you may adjust its configuration.".

Definition setDefaultService (service : option loc) : M unit :=
  λ w,
    (running <- match defaultService w with
                | Some d => DriverService_isRunning d
                | None => ret false
                end ;;
     if running : bool then throw (JsError still_running_message)
     else λ w', (Normal tt, set_defaultService service w')) w.

Definition getDefaultService : M loc :=
  λ w,
    match defaultService w with
    | Some d => (Normal d, w)
    | None =>
        (b <- ServiceBuilder_new None ;;
         s <- build b ;;
         λ w', (Normal s, set_defaultService (Some s) w')) w
    end.

(** ** Driver *)

(** Modelled from the spec: promise.thenFinally of the promise library
    (./index, not part of the sources): the callback runs whether the promise
    was fulfilled or rejected; the outcome is the promise's own, unless the
    callback fails. *)
Definition thenFinally (p : Promise) (callback : M Promise) : M Promise :=
  λ w, match callback w with
       | (Normal (Fulfilled _), w') => (Normal p, w')
       | (Normal (Rejected e), w') => (Normal (Rejected e), w')
       | (Throw e, w') => (Normal (Rejected e), w')
       end.

(** Modelled from the spec: the inherited WebDriver.prototype.quit (./index,
    not part of the sources), which "closes the remote session" and returns
    a promise; the call is recorded, and the promise settles as the
    environment says. *)
Definition WebDriver_quit (this : loc) : M Promise :=
  t <- get_trace ;;
  emit (EvSessionQuit this) ;;;
  ret (webdriver_quit_outcome env t).

(** Modelled from the spec: executors.createExecutor(endpoint) (./executors,
    not part of the sources), which "takes a started endpoint, returns a
    protocol executor"; the call is recorded and the executor is named after
    the service it is bound to. *)
Definition createExecutor (endpoint : loc) : M loc :=
  emit (EvCreateExecutor endpoint) ;;; ret endpoint.

(** Modelled from the spec: webdriver.WebDriver.createSession(executor,
    capabilities, opt_flow) (./index, not part of the sources), the
    "session-creation entry point"; the call is recorded. *)
Definition createSession (executor capabilities : loc) (flow : option nat)
  : M unit :=
  emit (EvCreateSession executor capabilities).

(** [opt_config instanceof Options] *)
Definition instanceof_Options (l : loc) : M bool :=
  λ w, match heap w !! l with
       | Some (OOptions _) => (Normal true, w)
       | _ => (Normal false, w)
       end.

(** [new Driver(opt_config, opt_service, opt_flow)] *)
Definition Driver_new (opt_config opt_service : option loc)
    (opt_flow : option nat) : M loc :=
  service <- match opt_service with
             | Some s => ret s
             | None => getDefaultService
             end ;;
  endpoint <- DriverService_start service ;;
  executor <- createExecutor endpoint ;;
  capabilities <- match opt_config with
                  | Some cfg =>
                      is_options <- instanceof_Options cfg ;;
                      if is_options : bool then toCapabilities cfg None
                      else ret cfg
                  | None => Capabilities_edge
                  end ;;
  createSession executor capabilities opt_flow ;;;
  alloc (ODriver {| drv_service := service; drv_executor := executor;
                    drv_capabilities := capabilities; drv_flow := opt_flow |}).

(** The overriding [this.quit]: [boundQuit()] is the inherited quit, and
    [service.kill.bind(service)] is looked up on the captured service before
    [thenFinally] is called. *)
Definition Driver_quit (this : loc) : M Promise :=
  d <- get_driver this ;;
  p <- WebDriver_quit this ;;
  get_service (drv_service d) ;;;
  thenFinally p (DriverService_kill (drv_service d)).

(** [Driver.prototype.setFileDetector]: a no-op. *)
Definition setFileDetector (this : loc) (detector : value) : M unit := ret tt.

(** ** Well-formed references *)

(** The stored default service, when there is one, is a DriverService (the
    type of the parameter of [setDefaultService]). *)
Definition default_service_ok (w : World) : Prop :=
  ∀ d, defaultService w = Some d → ∃ s, heap w !! d = Some (ODriverService s).

(** A default service is stored and its [isRunning()] reports true. *)
Definition default_service_live (w : World) : Prop :=
  ∃ d, defaultService w = Some d ∧
       DriverService_isRunning d w = (Normal true, w).

(** [this] is a Driver instance whose quit closure captured [service]. *)
Definition is_driver (w : World) (this service : loc) : Prop :=
  ∃ d s, heap w !! this = Some (ODriver d) ∧ drv_service d = service ∧
         heap w !! service = Some (ODriverService s).

(** ** Sequences of setter calls on an Options instance *)

(** The settings hold nothing but the page-load strategy. *)
Definition only_strategy (o : Options) : Prop :=
  ∀ k, k ≠ PAGE_LOAD_STRATEGY → options_ o !! k = None.

(** A call of one of the two setters of Options. *)
Inductive OptionsCall :=
| CallSetProxy (proxy : value)
| CallSetPageLoadStrategy (pageLoadStrategy : string).

Definition call_setter (this : loc) (call : OptionsCall) : M unit :=
  match call with
  | CallSetProxy proxy => setProxy this proxy ;;; ret tt
  | CallSetPageLoadStrategy s => setPageLoadStrategy this s ;;; ret tt
  end.

End Embedding.

Arguments Obj C : clear implicits.
Arguments World C : clear implicits.
Arguments M C A : clear implicits.

(** * Concrete capabilities maps and worlds *)

(** A second reading of the interface, in which [set] with null or undefined
    removes the entry, [get(key)] answers the stored value ([null] when there
    is none) and [has(key)] tells whether [get(key)] is truthy; every
    property proved over the interface holds for it as well. *)
Definition TruthyCapabilities : Capabilities (gmap string value) := {|
  PROXY := "proxy";
  caps_edge := {["browserName" := VStr "MicrosoftEdge"]};
  caps_has := λ c k, to_boolean (default VNull (c !! k));
  caps_get := λ c k, default VNull (c !! k);
  caps_set := λ c k v, if neq_null v then <[k := v]> c else delete k c;
|}.

(** An implementation of [String.prototype.toLowerCase] to run the examples
    with, all of which are about strings of ASCII characters. *)
Definition toLowerCase_sample : string → string := lower_ascii_string.

(** The entries of a capabilities map under the recognized keys. *)
Definition recognized_entries (c : gmap string value) : gmap string value :=
  filter (λ kv, kv.1 ∈ CAPABILITY_KEY.*2) c.

Definition empty_world : World (gmap string value) :=
  {| heap := []; defaultService := None; trace := [] |}.

(** [{pageLoadStrategy: "", platform: "WINDOWS"}] *)
Definition empty_strategy_caps : gmap string value :=
  {[ "pageLoadStrategy" := VStr EmptyString; "platform" := VStr "WINDOWS" ]}.

Definition empty_strategy_world : World (gmap string value) :=
  {| heap := [OCapabilities empty_strategy_caps];
     defaultService := None; trace := [] |}.

(** A heap with an Options object whose settings are
    [{pageLoadStrategy: "normal", nativeEvents: null, timeout: undefined}]
    and which holds a proxy. *)
Definition nullish_settings_world : World (gmap string value) :=
  {| heap := [OOptions
                {| options_ := {[ "pageLoadStrategy" := VStr "normal";
                                  "nativeEvents" := VNull;
                                  "timeout" := VUndefined ]};
                   proxy_ := VRef 7%nat |}];
     defaultService := None; trace := [] |}.

(** [{pageLoadStrategy: "eager", proxy: <object 7>, platform: "WINDOWS"}] *)
Definition eager_caps : gmap string value :=
  {[ "pageLoadStrategy" := VStr "eager"; "proxy" := VRef 7%nat;
     "platform" := VStr "WINDOWS" ]}.

(** A heap with that capabilities map at 0 and, at 1, an Options object
    holding [{pageLoadStrategy: "normal"}] and a proxy. *)
Definition options_world : World (gmap string value) :=
  {| heap := [OCapabilities eager_caps;
              OOptions {| options_ := {[ "pageLoadStrategy" := VStr "normal" ]};
                          proxy_ := VRef 7%nat |}];
     defaultService := None; trace := [] |}.


(** An environment in which the driver executable is installed, and in which
    quitting the session fails. *)
Definition edge_env : Env := {|
  io_findInPath := λ file _,
    if bool_decide (file = EDGEDRIVER_EXE)
    then Some "/opt/edge/MicrosoftWebDriver.exe" else None;
  fs_existsSync := λ path, bool_decide (path = "/opt/edge/MicrosoftWebDriver.exe");
  portprober_findFreePort := λ t, 49152 + Z.of_nat (length t);
  webdriver_quit_outcome := λ _, Rejected (JsError "session not created");
  service_kill_outcome := λ _, Fulfilled VUndefined;
|}.

(** An environment without the driver executable. *)
Definition bare_env : Env := {|
  io_findInPath := λ _ _, None;
  fs_existsSync := λ _, false;
  portprober_findFreePort := λ _, 49152;
  webdriver_quit_outcome := λ _, Fulfilled VUndefined;
  service_kill_outcome := λ _, Fulfilled VUndefined;
|}.

Definition edge_builder : ServiceBuilder :=
  {| exe_ := "/opt/edge/MicrosoftWebDriver.exe"; args_ := []; path_ := None;
     port_ := 0; stdio_ := StdioName "ignore"; env_ := None |}.

Definition edge_service (running : bool) : DriverService :=
  {| ds_exe := "/opt/edge/MicrosoftWebDriver.exe"; ds_loopback := true;
     ds_path := None; ds_port := 55555; ds_args := ["--port=55555"];
     ds_env := None; ds_stdio := StdioName "ignore"; ds_running := running |}.

(** A heap with a builder at 0 and a service at 1, which is the default
    service and is running or not. *)
Definition service_world (running : bool) : World (gmap string value) :=
  {| heap := [OServiceBuilder edge_builder; ODriverService (edge_service running)];
     defaultService := Some 1%nat; trace := [] |}.

(** The world after [new Driver()] made the default service at 1, started
    it, and created the Driver at 3 with the capabilities at 2. *)
Definition driver_world : World (gmap string value) :=
  {| heap := [OServiceBuilder edge_builder;
              ODriverService (edge_service true);
              OCapabilities {["browserName" := VStr "MicrosoftEdge"]};
              ODriver {| drv_service := 1%nat; drv_executor := 1%nat;
                         drv_capabilities := 2%nat; drv_flow := None |}];
     defaultService := Some 1%nat;
     trace := [EvStart 1%nat; EvCreateExecutor 1%nat;
               EvCreateSession 1%nat 2%nat] |}.

(** A heap with a capabilities map at 0, an Options instance at 1 and a
    service, not started, at 2. *)
Definition config_world : World (gmap string value) :=
  {| heap := [OCapabilities eager_caps;
              OOptions {| options_ := {[ "pageLoadStrategy" := VStr "normal" ]};
                          proxy_ := VRef 7%nat |};
              ODriverService (edge_service false)];
     defaultService := None; trace := [] |}.

(** A heap with a new Options instance at 0. *)
Definition new_options_world : World (gmap string value) :=
  {| heap := [OOptions {| options_ := ∅; proxy_ := VNull |}];
     defaultService := None; trace := [] |}.

(** * Properties *)

Section Properties.

Context {C : Type} `{Capabilities C}.
Variable env : Env.
Variable toLowerCase : string → string.

Implicit Types (w : World C) (o : Options) (c : C).

(** ** The heap *)

Lemma heap_lookup_alloc (h : list (Obj C)) (x : Obj C) :
  (h ++ [x]) !! length h = Some x.
Proof. rewrite lookup_app_r by lia. by rewrite Nat.sub_diag. Qed.

Lemma heap_lookup_old (h : list (Obj C)) (x y : Obj C) l :
  h !! l = Some y → (h ++ [x]) !! l = Some y.
Proof. intros Hl. by rewrite lookup_app_l by (by eapply lookup_lt_Some). Qed.

Lemma heap_insert_same (h : list (Obj C)) l (x y : Obj C) :
  h !! l = Some x → <[l := y]> h !! l = Some y.
Proof. intros Hl. apply list_lookup_insert_eq. by eapply lookup_lt_Some. Qed.

Lemma heap_insert_id (h : list (Obj C)) l (x : Obj C) :
  h !! l = Some x → <[l := x]> h = h.
Proof. apply list_insert_id. Qed.

(** ** Lower-casing of ASCII strings *)

Lemma lower_ascii_not_upper a : is_upper (lower_ascii a) = false.
Proof.
  unfold is_upper, lower_ascii.
  destruct ((65 <=? nat_of_ascii a)%nat && (nat_of_ascii a <=? 90)%nat) eqn:E.
  - apply andb_true_iff in E as [E1 E2].
    apply Nat.leb_le in E1, E2.
    rewrite nat_ascii_embedding by lia.
    apply andb_false_iff. right. apply Nat.leb_gt. lia.
  - exact E.
Qed.

Lemma lower_ascii_fixed a : is_upper a = false → lower_ascii a = a.
Proof. unfold is_upper, lower_ascii. by intros ->. Qed.

Lemma lower_ascii_string_no_upper s : has_upper (lower_ascii_string s) = false.
Proof.
  induction s as [|a s IH]; [done|]. simpl.
  by rewrite lower_ascii_not_upper, IH.
Qed.

Lemma lower_ascii_string_fixed s :
  has_upper s = false → lower_ascii_string s = s.
Proof.
  induction s as [|a s IH]; [done|]. simpl.
  intros [Ha Hs]%orb_false_iff. by rewrite lower_ascii_fixed, IH.
Qed.

Lemma lower_ascii_string_length s :
  String.length (lower_ascii_string s) = String.length s.
Proof. induction s as [|a s IH]; [done|]. simpl. by rewrite IH. Qed.

Lemma lower_ascii_is_ascii a :
  (nat_of_ascii a <? 128)%nat = true →
  (nat_of_ascii (lower_ascii a) <? 128)%nat = true.
Proof.
  intros Ha. unfold lower_ascii.
  destruct ((65 <=? nat_of_ascii a)%nat && (nat_of_ascii a <=? 90)%nat) eqn:E;
    [|exact Ha].
  apply andb_true_iff in E as [E1 E2]. apply Nat.leb_le in E1, E2.
  rewrite nat_ascii_embedding by lia. apply Nat.ltb_lt. lia.
Qed.

Lemma lower_ascii_string_is_ascii s :
  is_ascii_string s = true → is_ascii_string (lower_ascii_string s) = true.
Proof.
  induction s as [|a s IH]; [done|]. simpl.
  intros [Ha Hs]%andb_true_iff.
  by rewrite (lower_ascii_is_ascii _ Ha), IH.
Qed.

(** ** serialize *)

Lemma serialize_loop_lookup (entries : list (string * value)) json k v :
  NoDup entries.*1 →
  serialize_loop entries json !! k = Some v ↔
    ((k, v) ∈ entries ∧ neq_null v = true) ∨
    (json !! k = Some v ∧ ∀ v', (k, v') ∈ entries → neq_null v' = false).
Proof.
  revert json. induction entries as [|[k0 v0] rest IH]; intros json Hnd.
  - simpl. split.
    + intros Hj. right. split; [done|]. intros v' Hin. by apply elem_of_nil in Hin.
    + intros [[Hin _]|[Hj _]]; [by apply elem_of_nil in Hin | done].
  - rewrite fmap_cons in Hnd. apply NoDup_cons in Hnd as [Hk0 Hnd]. simpl in Hk0.
    simpl. rewrite (IH _ Hnd). clear IH.
    assert (Hfresh : ∀ v', (k0, v') ∈ rest → False).
    { intros v' Hin. apply Hk0. apply list_elem_of_fmap. by exists (k0, v'). }
    split.
    + intros [[Hin Hv]|[Hj Hall]].
      * left. split; [by apply elem_of_cons; right | done].
      * destruct (neq_null v0) eqn:Hv0.
        -- destruct (decide (k0 = k)) as [->|Hne].
           ++ rewrite lookup_insert_eq in Hj. injection Hj as ->.
              left. split; [apply elem_of_cons; by left | done].
           ++ rewrite lookup_insert_ne in Hj by done.
              right. split; [done|]. intros v' [Heq|Hin]%elem_of_cons.
              ** congruence.
              ** by apply Hall.
        -- right. split; [done|]. intros v' [Heq|Hin]%elem_of_cons.
           ++ congruence.
           ++ by apply Hall.
    + intros [[[Heq|Hin]%elem_of_cons Hv]|[Hj Hall]].
      * injection Heq as -> ->. rewrite Hv. right.
        split; [apply lookup_insert_eq|]. intros v' Hin. by destruct (Hfresh v').
      * by left.
      * right. split.
        -- destruct (neq_null v0) eqn:Hv0; [|done].
           destruct (decide (k0 = k)) as [->|Hne].
           ++ rewrite (Hall v0) in Hv0; [done | apply elem_of_cons; by left].
           ++ by rewrite lookup_insert_ne.
        -- intros v' Hin. apply Hall. apply elem_of_cons. by right.
Qed.

Lemma serialize_map_lookup (m : gmap string value) k v :
  serialize_loop (map_to_list m) ∅ !! k = Some v ↔
    m !! k = Some v ∧ neq_null v = true.
Proof.
  rewrite serialize_loop_lookup by apply NoDup_fst_map_to_list.
  rewrite elem_of_map_to_list. split.
  - intros [?|[Hj _]]; [done|]. by rewrite lookup_empty in Hj.
  - intros ?. by left.
Qed.

Lemma neq_null_spec v : neq_null v = true ↔ v ≠ VNull ∧ v ≠ VUndefined.
Proof. destruct v; cbn [neq_null]; split; try done; intros [? ?]; done. Qed.

Lemma serialize_map_lookup_non_null (m : gmap string value) k v :
  serialize_loop (map_to_list m) ∅ !! k = Some v ↔
    m !! k = Some v ∧ v ≠ VNull ∧ v ≠ VUndefined.
Proof. by rewrite serialize_map_lookup, neq_null_spec. Qed.

Lemma serialize_eq w this o :
  heap w !! this = Some (OOptions o) →
  serialize this w = (Normal (serialize_loop (map_to_list (options_ o)) ∅), w).
Proof.
  intros Hthis. unfold serialize, get_options, bind, get_obj, ret.
  by rewrite Hthis.
Qed.

(** ** Options *)

Lemma heap_insert_alloc (h : list (Obj C)) (x y : Obj C) :
  <[length h := y]> (h ++ [x]) = h ++ [y].
Proof. rewrite insert_app_r_alt by lia. by rewrite Nat.sub_diag. Qed.

Lemma options_store_eq w this o key v :
  heap w !! this = Some (OOptions o) →
  options_store this key v w =
    (Normal tt,
     set_heap (<[this := OOptions {| options_ := <[key := v]> (options_ o);
                                     proxy_ := proxy_ o |}]> (heap w)) w).
Proof.
  intros Hthis. unfold options_store, get_options, bind, get_obj, ret, put_obj.
  by rewrite Hthis.
Qed.

Lemma setProxy_eq w this o proxy :
  heap w !! this = Some (OOptions o) →
  setProxy this proxy w =
    (Normal this,
     set_heap (<[this := OOptions {| options_ := options_ o;
                                     proxy_ := proxy |}]> (heap w)) w).
Proof.
  intros Hthis. unfold setProxy, get_options, bind, get_obj, ret, put_obj.
  by rewrite Hthis.
Qed.

Lemma setPageLoadStrategy_eq w this o s :
  heap w !! this = Some (OOptions o) →
  setPageLoadStrategy toLowerCase this s w =
    (Normal this,
     set_heap (<[this := OOptions
                   {| options_ := <[PAGE_LOAD_STRATEGY := VStr (toLowerCase s)]>
                                    (options_ o);
                      proxy_ := proxy_ o |}]> (heap w)) w).
Proof.
  intros Hthis. unfold setPageLoadStrategy, bind.
  by rewrite (options_store_eq _ _ _ _ _ Hthis).
Qed.

(** ** Running the monad *)

Lemma bind_unfold {A B} (m : M C A) (f : A → M C B) w :
  bind m f w = match m w with
               | (Normal a, w') => f a w'
               | (Throw e, w') => (Throw e, w')
               end.
Proof. reflexivity. Qed.

Lemma get_options_eq w l o :
  heap w !! l = Some (OOptions o) → get_options l w = (Normal o, w).
Proof. intros Hl. unfold get_options, bind, get_obj, ret. by rewrite Hl. Qed.

Lemma get_capabilities_eq w l c :
  heap w !! l = Some (OCapabilities c) → get_capabilities l w = (Normal c, w).
Proof.
  intros Hl. unfold get_capabilities, bind, get_obj, ret. by rewrite Hl.
Qed.

Lemma get_builder_eq w l b :
  heap w !! l = Some (OServiceBuilder b) → get_builder l w = (Normal b, w).
Proof. intros Hl. unfold get_builder, bind, get_obj, ret. by rewrite Hl. Qed.

Lemma get_service_eq w l s :
  heap w !! l = Some (ODriverService s) → get_service l w = (Normal s, w).
Proof. intros Hl. unfold get_service, bind, get_obj, ret. by rewrite Hl. Qed.

Lemma get_driver_eq w l d :
  heap w !! l = Some (ODriver d) → get_driver l w = (Normal d, w).
Proof. intros Hl. unfold get_driver, bind, get_obj, ret. by rewrite Hl. Qed.

Lemma Capabilities_has_eq w l c k :
  heap w !! l = Some (OCapabilities c) →
  Capabilities_has l k w = (Normal (caps_has c k), add_event (EvHas l k) w).
Proof.
  intros Hl. unfold Capabilities_has, bind.
  by rewrite (get_capabilities_eq _ _ _ Hl).
Qed.

Lemma Capabilities_get_eq w l c k :
  heap w !! l = Some (OCapabilities c) →
  Capabilities_get l k w = (Normal (caps_get c k), add_event (EvGet l k) w).
Proof.
  intros Hl. unfold Capabilities_get, bind.
  by rewrite (get_capabilities_eq _ _ _ Hl).
Qed.

Lemma Capabilities_set_eq w l c k v :
  heap w !! l = Some (OCapabilities c) →
  Capabilities_set l k v w =
    (Normal l,
     {| heap := <[l := OCapabilities (caps_set c k v)]> (heap w);
        defaultService := defaultService w;
        trace := trace w ++ [EvSet l k v] |}).
Proof.
  intros Hl. unfold Capabilities_set, bind.
  by rewrite (get_capabilities_eq _ _ _ Hl).
Qed.

(** A call on something that is not a capabilities object throws, and
    leaves the world as it is. *)
Lemma Capabilities_has_throw w l k :
  (∀ c, heap w !! l ≠ Some (OCapabilities c)) →
  ∃ e, Capabilities_has l k w = (Throw e, w).
Proof.
  intros Hl. unfold Capabilities_has, get_capabilities, bind, get_obj, ret, throw.
  destruct (heap w !! l) as [[]|] eqn:E; eauto. by destruct (Hl c).
Qed.

Ltac mred :=
  cbv beta iota;
  cbn [heap trace defaultService fst snd set_heap add_event set_defaultService
       options_ proxy_].

Ltac heap_solve :=
  mred;
  first [ eassumption
        | apply heap_lookup_alloc
        | eapply heap_lookup_old; eassumption
        | eapply heap_insert_same; eassumption ].

Ltac mstep :=
  mred;
  first
    [ rewrite bind_unfold
    | erewrite Capabilities_has_eq by heap_solve
    | erewrite Capabilities_get_eq by heap_solve
    | erewrite Capabilities_set_eq by heap_solve
    | erewrite options_store_eq by heap_solve
    | erewrite setProxy_eq by heap_solve
    | erewrite get_options_eq by heap_solve
    | erewrite get_builder_eq by heap_solve
    | erewrite get_service_eq by heap_solve
    | erewrite get_driver_eq by heap_solve
    | rewrite heap_insert_alloc
    | progress unfold ret, throw, alloc, emit, put_obj, get_trace ].

Ltac run := repeat mstep; mred.

(** What [fromCapabilities] stores in the new Options object, given the
    answers of the capabilities object, and the calls it makes on it. *)
Lemma fromCapabilities_eq w capabilities c :
  heap w !! capabilities = Some (OCapabilities c) →
  fromCapabilities capabilities w =
    (Normal (length (heap w)),
     {| heap := heap w ++
          [OOptions
             {| options_ := if caps_has c PAGE_LOAD_STRATEGY
                            then {[PAGE_LOAD_STRATEGY :=
                                     caps_get c PAGE_LOAD_STRATEGY]}
                            else ∅;
                proxy_ := if caps_has c PROXY then caps_get c PROXY
                          else VNull |}];
        defaultService := defaultService w;
        trace := trace w ++
          [EvHas capabilities PAGE_LOAD_STRATEGY] ++
          (if caps_has c PAGE_LOAD_STRATEGY
           then [EvGet capabilities PAGE_LOAD_STRATEGY] else []) ++
          [EvHas capabilities PROXY] ++
          (if caps_has c PROXY then [EvGet capabilities PROXY] else []) |}).
Proof.
  intros Hc.
  unfold fromCapabilities, Options_new, CAPABILITY_KEY, forEach,
    PAGE_LOAD_STRATEGY.
  run.
  destruct (caps_has c "pageLoadStrategy") eqn:Hpls; run.
  all: destruct (caps_has c PROXY) eqn:Hpx; run.
  all: unfold set_heap, add_event; cbn [heap trace defaultService].
  all: rewrite <- ?app_assoc; try rewrite insert_empty; reflexivity.
Qed.

Lemma fromCapabilities_throw w capabilities :
  (∀ c, heap w !! capabilities ≠ Some (OCapabilities c)) →
  ∃ e, fromCapabilities capabilities w =
         (Throw e,
          set_heap (heap w ++ [OOptions {| options_ := ∅; proxy_ := VNull |}]) w).
Proof.
  intros Hc.
  unfold fromCapabilities, Options_new, CAPABILITY_KEY, forEach.
  rewrite bind_unfold. unfold alloc at 1. mred.
  set (w1 := set_heap _ w).
  destruct (Capabilities_has_throw w1 capabilities "pageLoadStrategy") as [e He].
  { intros c Hl. unfold w1 in Hl. cbn [heap set_heap] in Hl.
    destruct (decide (capabilities < length (heap w))%nat) as [Hlt|Hge].
    - rewrite lookup_app_l in Hl by done. by destruct (Hc c).
    - rewrite lookup_app_r in Hl by lia.
      by destruct (capabilities - length (heap w))%nat. }
  exists e. rewrite !bind_unfold. by rewrite He.
Qed.

Lemma set_heap_id w : set_heap (heap w) w = w.
Proof. by destruct w. Qed.

Lemma serialize_all_non_null (m : gmap string value) :
  (∀ k v, m !! k = Some v → neq_null v = true) →
  serialize_loop (map_to_list m) ∅ = m.
Proof.
  intros Hm. apply map_eq. intros k. apply option_eq. intros v.
  rewrite serialize_map_lookup. split.
  - by intros [? _].
  - intros Hk. split; [exact Hk | by apply (Hm k)].
Qed.

(** The settings map that holds the page-load strategy only. *)
Lemma only_strategy_insert (m : gmap string value) v :
  (∀ k, k ≠ PAGE_LOAD_STRATEGY → m !! k = None) →
  <[PAGE_LOAD_STRATEGY := v]> m = {[PAGE_LOAD_STRATEGY := v]}.
Proof.
  intros Hm. apply map_eq. intros k.
  destruct (decide (k = PAGE_LOAD_STRATEGY)) as [->|Hne].
  - by rewrite lookup_insert_eq, lookup_singleton_eq.
  - rewrite lookup_insert_ne, lookup_singleton_ne by done. by apply Hm.
Qed.

(** C9.  For every Options instance, [serialize()] returns (without touching
    the world) a map that contains exactly the entries of the internal
    settings map whose value is neither null nor undefined (the test is
    [!= null]).  The proxy configuration is not part of it: the result has an
    entry under the proxy key only if the settings themselves hold one,
    setting any proxy leaves the result of [serialize()] as it was, and for
    an Options made by [fromCapabilities], which absorbs the proxy of the
    capabilities, the only entry there can be is the page-load strategy. *)
Theorem serialize_non_null_settings_without_proxy w this o :
  heap w !! this = Some (OOptions o) →
  ∃ json,
    serialize this w = (Normal json, w) ∧
    (∀ k v, json !! k = Some v ↔
            options_ o !! k = Some v ∧ v ≠ VNull ∧ v ≠ VUndefined) ∧
    (options_ o !! PROXY = None → json !! PROXY = None) ∧
    (∀ proxy, ∃ w',
        setProxy this proxy w = (Normal this, w') ∧
        heap w' !! this =
          Some (OOptions {| options_ := options_ o; proxy_ := proxy |}) ∧
        serialize this w' = (Normal json, w')) ∧
    (∀ capabilities c, heap w !! capabilities = Some (OCapabilities c) →
       ∃ options o' w' json',
         fromCapabilities capabilities w = (Normal options, w') ∧
         heap w' !! options = Some (OOptions o') ∧
         proxy_ o' = (if caps_has c PROXY then caps_get c PROXY else VNull) ∧
         serialize options w' = (Normal json', w') ∧
         ∀ k v, json' !! k = Some v →
                k = PAGE_LOAD_STRATEGY ∧ v = caps_get c PAGE_LOAD_STRATEGY).
Proof.
  intros Hthis. eexists. split; [by apply serialize_eq|].
  split; [apply serialize_map_lookup_non_null|]. split; [|split].
  - intros Hnone.
    destruct (serialize_loop (map_to_list (options_ o)) ∅ !! PROXY)
      as [v|] eqn:Hv; [|done].
    apply serialize_map_lookup in Hv as [Hv _]. congruence.
  - intros proxy. eexists. split; [by apply setProxy_eq|].
    split; [heap_solve|].
    erewrite serialize_eq by heap_solve. reflexivity.
  - intros capabilities c Hc. do 4 eexists.
    split; [by apply fromCapabilities_eq|].
    split; [heap_solve|]. split; [reflexivity|].
    split; [apply serialize_eq; heap_solve|].
    intros k v [Hk Hv]%serialize_map_lookup. cbn [options_] in Hk.
    destruct (caps_has c PAGE_LOAD_STRATEGY).
    + apply lookup_singleton_Some in Hk as [<- <-]. done.
    + by rewrite lookup_empty in Hk.
Qed.

(** C8.  For every string, [setPageLoadStrategy] stores what
    [String.prototype.toLowerCase] answers on its argument under the key
    pageLoadStrategy and returns the Options instance it was called on;
    nothing else changes.  This holds whatever the built-in computes.  Given
    that the built-in lower-cases the letters A to Z of a string of ASCII
    characters and keeps its other characters: when the argument is such a
    string, the stored string has no letter A to Z, has the length of the
    argument, and is the argument itself when that has no letter A to Z; and
    on an Options instance with no other setting,
    [setPageLoadStrategy("EAGER")] followed by [serialize()] yields
    [{pageLoadStrategy: "eager"}]. *)
Theorem setPageLoadStrategy_stores_lower_case w this o s :
  heap w !! this = Some (OOptions o) →
  (∃ w',
      setPageLoadStrategy toLowerCase this s w = (Normal this, w') ∧
      heap w' !! this =
        Some (OOptions
                {| options_ := <[PAGE_LOAD_STRATEGY := VStr (toLowerCase s)]>
                                 (options_ o);
                   proxy_ := proxy_ o |}) ∧
      (∀ l, l ≠ this → heap w' !! l = heap w !! l) ∧
      defaultService w' = defaultService w ∧ trace w' = trace w) ∧
  (toLowerCase_on_ascii toLowerCase →
   (is_ascii_string s = true →
    has_upper (toLowerCase s) = false ∧
    String.length (toLowerCase s) = String.length s ∧
    (has_upper s = false → toLowerCase s = s)) ∧
   ((∀ k, k ≠ PAGE_LOAD_STRATEGY → options_ o !! k = None) →
    ∃ w',
      setPageLoadStrategy toLowerCase this "EAGER" w = (Normal this, w') ∧
      serialize this w' =
        (Normal {[PAGE_LOAD_STRATEGY := VStr "eager"]}, w'))).
Proof.
  intros Hthis. split; [|intros Hascii; split].
  - eexists. split; [by apply setPageLoadStrategy_eq|].
    split; [heap_solve|]. split; [|done].
    intros l Hl. mred. by rewrite list_lookup_insert_ne.
  - intros Hs. rewrite (Hascii s Hs). split; [|split].
    + apply lower_ascii_string_no_upper.
    + apply lower_ascii_string_length.
    + apply lower_ascii_string_fixed.
  - intros Honly. eexists. split; [by apply setPageLoadStrategy_eq|].
    erewrite serialize_eq by heap_solve. cbn [options_].
    rewrite (Hascii "EAGER" eq_refl).
    rewrite (only_strategy_insert _ _ Honly).
    rewrite serialize_all_non_null; [reflexivity|].
    intros k v [_ <-]%lookup_singleton_Some. reflexivity.
Qed.

(** C10.  [fromCapabilities] never modifies the capabilities map it is given:
    whatever the argument, and whether the call returns or throws, the only
    calls it makes are [has(key)] and [get(key)] on its argument, and the
    world after the call is the world before it with these calls recorded and
    one new object, the Options under construction, added.  So every object
    that existed before is as it was, and a capabilities map given as the
    argument is the same map after the call. *)
Theorem fromCapabilities_leaves_capabilities_unchanged w capabilities :
  ∃ o' calls,
    snd (fromCapabilities capabilities w) =
      {| heap := heap w ++ [OOptions o'];
         defaultService := defaultService w;
         trace := trace w ++ calls |} ∧
    forallb (is_read_of capabilities) calls = true ∧
    take (length (heap w)) (heap (snd (fromCapabilities capabilities w))) =
      heap w ∧
    (∀ c, heap w !! capabilities = Some (OCapabilities c) →
          ∃ options,
            fst (fromCapabilities capabilities w) = Normal options ∧
            heap (snd (fromCapabilities capabilities w)) !! capabilities =
              Some (OCapabilities c)).
Proof.
  assert (∃ o' calls,
            snd (fromCapabilities capabilities w) =
              {| heap := heap w ++ [OOptions o'];
                 defaultService := defaultService w;
                 trace := trace w ++ calls |} ∧
            forallb (is_read_of capabilities) calls = true)
    as (o' & calls & Ho' & Hcalls).
  { assert (Hthrow : (∀ c, heap w !! capabilities ≠ Some (OCapabilities c)) →
              ∃ o' calls,
                snd (fromCapabilities capabilities w) =
                  {| heap := heap w ++ [OOptions o'];
                     defaultService := defaultService w;
                     trace := trace w ++ calls |} ∧
                forallb (is_read_of capabilities) calls = true).
    { intros Hc. destruct (fromCapabilities_throw w capabilities Hc) as [e He].
      rewrite He. eexists _, []. split; [|done].
      unfold set_heap. cbn [snd]. by rewrite app_nil_r. }
    destruct (heap w !! capabilities) as [x|] eqn:Hl.
    - destruct x as [o|c|b|s|d];
        try (apply Hthrow; intros c'; congruence).
      rewrite (fromCapabilities_eq _ _ _ Hl). do 2 eexists.
      split; [reflexivity|].
      destruct (caps_has c PAGE_LOAD_STRATEGY), (caps_has c PROXY);
        cbn [app forallb is_read_of]; by rewrite bool_decide_eq_true_2.
    - apply Hthrow. intros c'. congruence. }
  exists o', calls. split; [done|]. split; [done|].
  rewrite Ho'. cbn [heap]. split.
  - by rewrite take_app_length.
  - intros c Hc. rewrite (fromCapabilities_eq _ _ _ Hc). cbn [fst].
    eexists. split; [reflexivity|]. by apply heap_lookup_old.
Qed.

(** C4, as amended.  For every capabilities map, [fromCapabilities] returns
    (it does not throw) an Options whose [serialize()] result contains
    exactly the recognized keys (here only pageLoadStrategy) that the map
    has ([has(key)] is true) with a value that is neither null nor
    undefined, each with the value the map gives for it.  Every other key of
    the input is dropped, and so is a recognized key that the map does not
    report ([has(key)] is false) or whose value is null or undefined. *)
Theorem fromCapabilities_serialize_recognized_non_null w capabilities c :
  heap w !! capabilities = Some (OCapabilities c) →
  ∃ options w' json,
    fromCapabilities capabilities w = (Normal options, w') ∧
    serialize options w' = (Normal json, w') ∧
    ∀ k v, json !! k = Some v ↔
           k ∈ CAPABILITY_KEY.*2 ∧ caps_has c k = true ∧ caps_get c k = v ∧
           v ≠ VNull ∧ v ≠ VUndefined.
Proof.
  intros Hc. do 3 eexists.
  split; [by apply fromCapabilities_eq|].
  split; [apply serialize_eq; heap_solve|].
  intros k v. rewrite serialize_map_lookup_non_null. cbn [options_].
  unfold CAPABILITY_KEY. rewrite fmap_cons, fmap_nil. cbn [snd].
  rewrite list_elem_of_singleton.
  destruct (caps_has c PAGE_LOAD_STRATEGY) eqn:Hhas.
  - rewrite lookup_singleton_Some. split.
    + intros [[<- <-] Hv]. done.
    + intros (-> & _ & <- & Hv). done.
  - rewrite lookup_empty. split.
    + intros [? _]. done.
    + intros (-> & Hh & _). unfold PAGE_LOAD_STRATEGY in Hhas. congruence.
Qed.

(** ** toCapabilities *)

Lemma map_keys_elem (m : gmap string value) k :
  k ∈ (map_to_list m).*1 ↔ is_Some (m !! k).
Proof.
  rewrite list_elem_of_fmap. split.
  - intros [[k' v] [-> Hin]]. apply elem_of_map_to_list in Hin. by exists v.
  - intros [v Hv]. exists (k, v). split; [done|]. by apply elem_of_map_to_list.
Qed.

Lemma set_all_other (m : gmap string value) keys c k :
  CapabilitiesLaws C → k ∉ keys →
  caps_get (fold_left (λ c k, caps_set c k (default VUndefined (m !! k))) keys c) k
    = caps_get c k ∧
  caps_has (fold_left (λ c k, caps_set c k (default VUndefined (m !! k))) keys c) k
    = caps_has c k.
Proof.
  intros Hlaws. revert c. induction keys as [|k0 keys IH]; intros c Hk; [done|].
  apply not_elem_of_cons in Hk as [Hne Hk]. cbn [fold_left].
  destruct (IH (caps_set c k0 (default VUndefined (m !! k0))) Hk) as [-> ->].
  split.
  - by apply caps_get_set_ne.
  - by apply caps_has_set_ne.
Qed.

Lemma set_all_member (m : gmap string value) keys c k :
  CapabilitiesLaws C → NoDup keys → k ∈ keys →
  caps_get (fold_left (λ c k, caps_set c k (default VUndefined (m !! k))) keys c) k
    = default VUndefined (m !! k) ∧
  caps_has (fold_left (λ c k, caps_set c k (default VUndefined (m !! k))) keys c) k
    = true.
Proof.
  intros Hlaws. revert c. induction keys as [|k0 keys IH]; intros c Hnd Hk.
  - by apply elem_of_nil in Hk.
  - apply NoDup_cons in Hnd as [Hk0 Hnd]. cbn [fold_left].
    apply elem_of_cons in Hk as [->|Hk].
    + destruct (set_all_other m keys (caps_set c k0 (default VUndefined (m !! k0)))
                  k0 Hlaws Hk0) as [-> ->].
      split; [apply caps_get_set | apply caps_has_set]; done.
    + by apply IH.
Qed.

Lemma toCapabilities_loop this o capabilities keys w c :
  heap w !! this = Some (OOptions o) →
  heap w !! capabilities = Some (OCapabilities c) →
  forEach keys (λ key,
    bind (get_options this) (λ o',
      bind (Capabilities_set capabilities key
              (default VUndefined (options_ o' !! key)))
           (λ _, ret tt))) w =
  (Normal tt,
   {| heap := <[capabilities :=
                  OCapabilities
                    (fold_left (λ c k, caps_set c k
                                  (default VUndefined (options_ o !! k)))
                       keys c)]> (heap w);
      defaultService := defaultService w;
      trace := trace w ++
        map (λ k, EvSet capabilities k (default VUndefined (options_ o !! k)))
          keys |}).
Proof.
  revert w c. induction keys as [|k0 keys IH]; intros w c Hthis Hc.
  - cbn [forEach fold_left map]. unfold ret.
    rewrite (heap_insert_id _ _ _ Hc), app_nil_r. by destruct w.
  - assert (Hne : capabilities ≠ this) by (intros ->; congruence).
    cbn [forEach fold_left map]. run.
    rewrite IH with (c := caps_set c k0 (default VUndefined (options_ o !! k0))).
    + mred. by rewrite list_insert_insert_eq, <- app_assoc.
    + mred. by rewrite list_lookup_insert_ne.
    + heap_solve.
Qed.

Lemma settings_calls_eq capabilities (m : gmap string value) :
  map (λ k, EvSet capabilities k (default VUndefined (m !! k)))
    (map_to_list m).*1 =
  map (λ kv, EvSet capabilities kv.1 kv.2) (map_to_list m).
Proof.
  change (map_to_list m).*1 with (map fst (map_to_list m)).
  rewrite map_map. apply map_ext_in. intros [k v] Hin. cbn [fst snd].
  apply list_elem_of_In, elem_of_map_to_list in Hin. by rewrite Hin.
Qed.

Lemma toCapabilities_eq this o capabilities w c :
  heap w !! this = Some (OOptions o) →
  heap w !! capabilities = Some (OCapabilities c) →
  toCapabilities this (Some capabilities) w =
  (Normal capabilities,
   {| heap := <[capabilities :=
                  OCapabilities
                    (fold_left (λ c k, caps_set c k
                                  (default VUndefined (options_ o !! k)))
                       (map_to_list (options_ o)).*1
                       (if to_boolean (proxy_ o)
                        then caps_set c PROXY (proxy_ o) else c))]> (heap w);
      defaultService := defaultService w;
      trace := trace w ++ merge_calls capabilities o |}).
Proof.
  intros Hthis Hc.
  assert (Hne : capabilities ≠ this) by (intros ->; congruence).
  unfold toCapabilities, merge_calls. rewrite <- settings_calls_eq. run.
  destruct (to_boolean (proxy_ o)) eqn:Hp; run.
  - erewrite toCapabilities_loop.
    + mred. by rewrite list_insert_insert_eq, <- app_assoc.
    + mred. rewrite list_lookup_insert_ne by done. exact Hthis.
    + heap_solve.
  - by erewrite toCapabilities_loop by eassumption.
Qed.

Lemma toCapabilities_fresh_eq this o w :
  heap w !! this = Some (OOptions o) →
  toCapabilities this None w =
  (Normal (length (heap w)),
   {| heap := heap w ++
        [OCapabilities
           (fold_left (λ c k, caps_set c k
                         (default VUndefined (options_ o !! k)))
              (map_to_list (options_ o)).*1
              (if to_boolean (proxy_ o)
               then caps_set caps_edge PROXY (proxy_ o) else caps_edge))];
      defaultService := defaultService w;
      trace := trace w ++ merge_calls (length (heap w)) o |}).
Proof.
  intros Hthis.
  assert (Hfresh :
    toCapabilities this None w =
      toCapabilities this (Some (length (heap w)))
        (set_heap (heap w ++ [OCapabilities caps_edge]) w)).
  { unfold toCapabilities, Capabilities_edge.
    rewrite !(bind_unfold _ _ w). unfold alloc at 1. mred.
    rewrite !(bind_unfold _ _ (set_heap _ w)). unfold ret at 2. reflexivity. }
  rewrite Hfresh. erewrite toCapabilities_eq by heap_solve.
  mred. by rewrite heap_insert_alloc.
Qed.

Lemma merged_onto_fold o c :
  CapabilitiesLaws C →
  merged_onto o c
    (fold_left (λ c k, caps_set c k (default VUndefined (options_ o !! k)))
       (map_to_list (options_ o)).*1
       (if to_boolean (proxy_ o) then caps_set c PROXY (proxy_ o) else c)).
Proof.
  intros Hlaws. split; [|split].
  - intros k v Hk.
    destruct (set_all_member (options_ o) (map_to_list (options_ o)).*1
                (if to_boolean (proxy_ o) then caps_set c PROXY (proxy_ o) else c)
                k Hlaws) as [-> ->].
    + apply NoDup_fst_map_to_list.
    + apply map_keys_elem. by exists v.
    + by rewrite Hk.
  - intros Hp Hk. rewrite Hp.
    destruct (set_all_other (options_ o) (map_to_list (options_ o)).*1
                (caps_set c PROXY (proxy_ o)) PROXY Hlaws) as [-> ->].
    + rewrite map_keys_elem, Hk. by intros [? ?].
    + split; [apply caps_get_set | apply caps_has_set]; done.
  - intros k Hk Hpx.
    destruct (set_all_other (options_ o) (map_to_list (options_ o)).*1
                (if to_boolean (proxy_ o) then caps_set c PROXY (proxy_ o) else c)
                k Hlaws) as [-> ->].
    + rewrite map_keys_elem, Hk. by intros [? ?].
    + destruct (to_boolean (proxy_ o)) eqn:Hp; [|done].
      assert (PROXY ≠ k) by (intros <-; by specialize (Hpx eq_refl)).
      split; [by apply caps_get_set_ne | by apply caps_has_set_ne].
Qed.


(** ** ServiceBuilder *)


Lemma ServiceBuilder_new_normal opt_exe w this w' :
  ServiceBuilder_new env opt_exe w = (Normal this, w') →
  ∃ b, this = length (heap w) ∧
       w' = set_heap (heap w ++ [OServiceBuilder b]) w.
Proof.
  unfold ServiceBuilder_new.
  destruct (str_or opt_exe (io_findInPath env EDGEDRIVER_EXE true))
    as [exe|]; [|by intros [=]].
  case_bool_decide as Hempty; [by intros [=]|].
  destruct (fs_existsSync env exe) eqn:Hex; [|by intros [=]].
  unfold alloc. intros [= <- <-]. by eexists.
Qed.


Lemma build_eq w this b :
  heap w !! this = Some (OServiceBuilder b) →
  build env this w =
    (Normal (length (heap w)),
     {| heap := heap w ++
          [ODriverService
             {| ds_exe := exe_ b; ds_loopback := true; ds_path := path_ b;
                ds_port := if port_ b =? 0
                           then portprober_findFreePort env (trace w)
                           else port_ b;
                ds_args := args_ b ++
                  ["--port=" +:+
                   pretty (if port_ b =? 0
                           then portprober_findFreePort env (trace w)
                           else port_ b)];
                ds_env := env_ b; ds_stdio := stdio_ b;
                ds_running := false |}];
        defaultService := defaultService w;
        trace := if port_ b =? 0
                 then trace w ++
                        [EvFindFreePort (portprober_findFreePort env (trace w))]
                 else trace w |}).
Proof.
  intros Hthis. unfold build, DriverService_new, findFreePort. run.
  destruct (port_ b =? 0) eqn:Hp; run; [reflexivity|].
  by destruct w.
Qed.

(** C6.  On a builder, [usingPort(port)] throws for every negative port and
    leaves the world as it was: the stored port is unchanged and no call is
    made on a collaborator.  For any other port it stores the port and
    returns the builder it was called on.  With a stored port of 0, [build()]
    asks the port prober and gives the service the port it answers; with any
    other stored port, the service gets that port and the prober is not
    asked. *)
Theorem usingPort_rejects_negative_and_zero_probes w this b port :
  heap w !! this = Some (OServiceBuilder b) →
  (port < 0 →
   usingPort this port w =
     (Throw (JsError ("port must be >= 0: " +:+ pretty port)), w)) ∧
  (0 ≤ port →
   usingPort this port w =
     (Normal this,
      set_heap (<[this := OServiceBuilder
                    {| exe_ := exe_ b; args_ := args_ b; path_ := path_ b;
                       port_ := port; stdio_ := stdio_ b; env_ := env_ b |}]>
                  (heap w)) w)) ∧
  (∃ s w',
     build env this w = (Normal (length (heap w)), w') ∧
     heap w' = heap w ++ [ODriverService s] ∧
     ds_running s = false ∧
     (port_ b = 0 →
      ds_port s = portprober_findFreePort env (trace w) ∧
      trace w' = trace w ++ [EvFindFreePort (ds_port s)]) ∧
     (port_ b ≠ 0 → ds_port s = port_ b ∧ trace w' = trace w)).
Proof.
  intros Hthis. split; [|split].
  - intros Hneg. unfold usingPort.
    by rewrite (proj2 (Z.ltb_lt port 0) Hneg).
  - intros Hpos. unfold usingPort.
    rewrite (proj2 (Z.ltb_ge port 0) Hpos). by run.
  - do 2 eexists. split; [by apply build_eq|]. cbn [heap trace ds_port ds_running].
    split; [reflexivity|]. split; [reflexivity|]. split.
    + intros ->. done.
    + intros Hne. by rewrite (proj2 (Z.eqb_neq _ _) Hne).
Qed.

(** ** The default service *)

Lemma DriverService_isRunning_eq w d s :
  heap w !! d = Some (ODriverService s) →
  DriverService_isRunning d w = (Normal (ds_running s), w).
Proof. intros Hd. unfold DriverService_isRunning. by run. Qed.

(** C2.  While the stored default service (if any) is a DriverService,
    [setDefaultService(service)] throws if and only if a default service is
    stored and its [isRunning()] reports true; when it throws the world is as
    before, so the stored reference is unchanged; in every other case the
    stored reference becomes the argument, and nothing else changes: the heap,
    with the old service in it, and the trace of calls are as before, so no
    teardown took place. *)
Theorem setDefaultService_refused_while_running w service :
  default_service_ok w →
  ((∃ e w', setDefaultService service w = (Throw e, w')) ↔
   default_service_live w) ∧
  (default_service_live w →
   setDefaultService service w = (Throw (JsError still_running_message), w)) ∧
  (¬ default_service_live w →
   setDefaultService service w = (Normal tt, set_defaultService service w) ∧
   defaultService (set_defaultService service w) = service ∧
   heap (set_defaultService service w) = heap w ∧
   trace (set_defaultService service w) = trace w).
Proof.
  intros Hok. unfold default_service_ok in Hok.
  assert (Hcases :
    (default_service_live w ∧
     setDefaultService service w = (Throw (JsError still_running_message), w)) ∨
    (¬ default_service_live w ∧
     setDefaultService service w = (Normal tt, set_defaultService service w))).
  { unfold setDefaultService, default_service_live.
    destruct (defaultService w) as [d|] eqn:Hd.
    - destruct (Hok d eq_refl) as [s Hs].
      rewrite bind_unfold, (DriverService_isRunning_eq _ _ _ Hs).
      destruct (ds_running s) eqn:Hrun.
      + left. split; [|done]. exists d. split; [done|].
        by rewrite (DriverService_isRunning_eq _ _ _ Hs), Hrun.
      + right. split; [|done]. intros (d' & [= <-] & Hlive).
        rewrite (DriverService_isRunning_eq _ _ _ Hs), Hrun in Hlive.
        by injection Hlive.
    - right. split; [|done]. by intros (d' & [=] & _). }
  split; [|split].
  - split.
    + intros (e & w' & He). destruct Hcases as [[Hlive _]|[_ Heq]]; [done|].
      rewrite Heq in He. by injection He.
    + intros Hlive. destruct Hcases as [[_ Heq]|[Hn _]]; [eauto | done].
  - intros Hlive. by destruct Hcases as [[_ Heq]|[Hn _]].
  - intros Hn. destruct Hcases as [[Hlive _]|[_ Heq]]; [done|].
    by rewrite Heq.
Qed.

Lemma getDefaultService_stored w d :
  defaultService w = Some d → getDefaultService env w = (Normal d, w).
Proof. intros Hd. unfold getDefaultService. by rewrite Hd. Qed.

Lemma getDefaultService_unset w :
  defaultService w = None →
  getDefaultService env w =
    match bind (ServiceBuilder_new env None) (build env) w with
    | (Normal s, w') => (Normal s, set_defaultService (Some s) w')
    | (Throw e, w') => (Throw e, w')
    end.
Proof.
  intros Hd. unfold getDefaultService. rewrite Hd. unfold bind.
  destruct (ServiceBuilder_new env None w) as [[b|e] w1]; [|done].
  by destruct (build env b w1) as [[s|e] w2].
Qed.

(** The default builder and its service, when the executable is there. *)
Lemma default_build_eq w exe :
  io_findInPath env EDGEDRIVER_EXE true = Some exe → exe ≠ "" →
  fs_existsSync env exe = true →
  bind (ServiceBuilder_new env None) (build env) w =
    (Normal (S (length (heap w))),
     {| heap := heap w ++
          [OServiceBuilder
             {| exe_ := exe; args_ := []; path_ := None; port_ := 0;
                stdio_ := StdioName "ignore"; env_ := None |};
           ODriverService
             {| ds_exe := exe; ds_loopback := true; ds_path := None;
                ds_port := portprober_findFreePort env (trace w);
                ds_args := ["--port=" +:+
                            pretty (portprober_findFreePort env (trace w))];
                ds_env := None; ds_stdio := StdioName "ignore";
                ds_running := false |}];
        defaultService := defaultService w;
        trace := trace w ++
                   [EvFindFreePort (portprober_findFreePort env (trace w))] |}).
Proof.
  intros Hfind Hne Hex. rewrite bind_unfold.
  unfold ServiceBuilder_new. cbn [str_or]. rewrite Hfind.
  rewrite bool_decide_eq_false_2 by done. rewrite Hex. unfold alloc. cbn [negb]. mred.
  erewrite build_eq by heap_solve. mred. cbn [port_ exe_ args_ path_ env_ stdio_].
  rewrite Z.eqb_refl, length_app, <- app_assoc. cbn [length app].
  by rewrite Nat.add_1_r.
Qed.

(** Whatever [getDefaultService] returns is stored, it is a DriverService
    when the stored one was, and every object there was is still there. *)
Lemma getDefaultService_result w s w' :
  getDefaultService env w = (Normal s, w') →
  defaultService w' = Some s ∧
  (default_service_ok w → ∃ sv, heap w' !! s = Some (ODriverService sv)) ∧
  (∀ l x, heap w !! l = Some x → heap w' !! l = Some x).
Proof.
  destruct (defaultService w) as [d|] eqn:Hd.
  - rewrite (getDefaultService_stored _ _ Hd). intros [= <- <-].
    split; [done|]. split; [|done]. intros Hok. by apply Hok.
  - rewrite (getDefaultService_unset _ Hd), bind_unfold.
    destruct (ServiceBuilder_new env None w) as [[b|e] w1] eqn:Hb; [|by intros [=]].
    destruct (ServiceBuilder_new_normal _ _ _ _ Hb) as (sb & -> & ->).
    erewrite build_eq by heap_solve. mred. intros [= <- <-].
    cbn [heap defaultService]. split; [done|]. split.
    + intros _. eexists. apply heap_lookup_alloc.
    + intros l x Hl. by do 2 apply heap_lookup_old.
Qed.

(** ** Driver *)

Lemma DriverService_start_eq w service sv :
  heap w !! service = Some (ODriverService sv) →
  DriverService_start service w =
    (Normal service,
     {| heap := <[service := ODriverService (set_running true sv)]> (heap w);
        defaultService := defaultService w;
        trace := trace w ++ [EvStart service] |}).
Proof. intros Hs. unfold DriverService_start. by run. Qed.

Lemma DriverService_start_normal w service r w' :
  DriverService_start service w = (Normal r, w') →
  ∃ sv, heap w !! service = Some (ODriverService sv).
Proof.
  unfold DriverService_start, get_service, bind, get_obj, ret, throw.
  destruct (heap w !! service) as [[]|]; try by intros [=]. eauto.
Qed.

Lemma DriverService_kill_eq w service sv :
  heap w !! service = Some (ODriverService sv) →
  DriverService_kill env service w =
    (Normal (service_kill_outcome env (trace w)),
     {| heap := <[service := ODriverService (set_running false sv)]> (heap w);
        defaultService := defaultService w;
        trace := trace w ++ [EvKill service] |}).
Proof. intros Hs. unfold DriverService_kill. by run. Qed.

(** The capabilities a new Driver is created with: resolving them adds at
    most one object and changes no object there was. *)
Lemma Driver_capabilities_frame (cfg : option loc) w caps w' :
  match cfg with
  | Some c =>
      bind (instanceof_Options c)
        (λ is_options : bool,
           if is_options then toCapabilities c None else ret c)
  | None => Capabilities_edge
  end w = (Normal caps, w') →
  defaultService w' = defaultService w ∧
  ∀ l x, heap w !! l = Some x → heap w' !! l = Some x.
Proof.
  destruct cfg as [c|].
  - rewrite bind_unfold. unfold instanceof_Options.
    destruct (heap w !! c) as [[o| | | |]|] eqn:Hc;
      try (unfold ret; intros [= <- <-]; done).
    rewrite (toCapabilities_fresh_eq _ _ _ Hc). intros [= <- <-].
    split; [done|]. intros l x Hl. mred. by apply heap_lookup_old.
  - unfold Capabilities_edge, alloc. intros [= <- <-].
    split; [done|]. intros l x Hl. mred. by apply heap_lookup_old.
Qed.

Lemma Driver_new_eq cfg service flow w sv :
  heap w !! service = Some (ODriverService sv) →
  Driver_new env cfg (Some service) flow w =
    match
      match cfg with
      | Some c =>
          bind (instanceof_Options c)
            (λ is_options : bool,
               if is_options then toCapabilities c None else ret c)
      | None => Capabilities_edge
      end
        {| heap := <[service := ODriverService (set_running true sv)]> (heap w);
           defaultService := defaultService w;
           trace := (trace w ++ [EvStart service]) ++ [EvCreateExecutor service] |}
    with
    | (Normal caps, w2) =>
        (Normal (length (heap w2)),
         {| heap := heap w2 ++
              [ODriver {| drv_service := service; drv_executor := service;
                          drv_capabilities := caps; drv_flow := flow |}];
            defaultService := defaultService w2;
            trace := trace w2 ++ [EvCreateSession service caps] |})
    | (Throw e, w2) => (Throw e, w2)
    end.
Proof.
  intros Hs. unfold Driver_new.
  rewrite bind_unfold. unfold ret at 1. mred.
  rewrite bind_unfold, (DriverService_start_eq _ _ _ Hs). mred.
  unfold createExecutor, createSession. run.
  unfold add_event at 1. cbn [heap trace defaultService].
  match goal with |- context [match ?m ?w1 with _ => _ end] =>
    destruct (m w1) as [[caps|e] w2] end; [|done].
  by run.
Qed.

Lemma Driver_new_default cfg flow w :
  Driver_new env cfg None flow w =
    match getDefaultService env w with
    | (Normal s, w0) => Driver_new env cfg (Some s) flow w0
    | (Throw e, w0) => (Throw e, w0)
    end.
Proof. reflexivity. Qed.

(** What a successful construction with a given service leaves behind. *)
Lemma Driver_new_service cfg service flow w this w' :
  Driver_new env cfg (Some service) flow w = (Normal this, w') →
  ∃ sv d caps,
    heap w !! service = Some (ODriverService sv) ∧
    heap w' !! this = Some (ODriver d) ∧ drv_service d = service ∧
    heap w' !! service = Some (ODriverService (set_running true sv)) ∧
    defaultService w' = defaultService w ∧
    drv_capabilities d = caps ∧
    (∀ l x, heap w !! l = Some x → l ≠ service → heap w' !! l = Some x).
Proof.
  intros Hnew.
  assert (∃ sv, heap w !! service = Some (ODriverService sv)) as [sv Hs].
  { unfold Driver_new in Hnew. rewrite bind_unfold in Hnew.
    unfold ret at 1 in Hnew. rewrite bind_unfold in Hnew.
    destruct (DriverService_start service w) as [[r|e] w1] eqn:Hstart;
      [|by injection Hnew].
    by eapply DriverService_start_normal. }
  rewrite (Driver_new_eq _ _ _ _ _ Hs) in Hnew.
  match type of Hnew with context [match ?m ?w1 with _ => _ end] =>
    destruct (m w1) as [[caps|e] w2] eqn:Hcaps end; [|by injection Hnew].
  apply Driver_capabilities_frame in Hcaps as (Hd & Hh).
  cbn [heap defaultService trace] in Hd, Hh.
  injection Hnew as <- <-. exists sv. do 2 eexists.
  split; [done|]. cbn [heap defaultService trace].
  split; [apply heap_lookup_alloc|]. split; [done|].
  split; [|split; [done|split; [reflexivity|]]].
  - apply heap_lookup_old, Hh. heap_solve.
  - intros l x Hl Hne. apply heap_lookup_old, Hh.
    by rewrite list_lookup_insert_ne.
Qed.

(** C3.  [getDefaultService()] returns the stored default service when there
    is one, and leaves the world as it is.  When there is none it builds one
    with [new ServiceBuilder().build()] and stores it, which succeeds when
    the driver executable is found and exists.  Whenever a call returns, the
    instance it returns is the stored one, and the next call returns the
    same instance and changes nothing.  Hence two Drivers constructed one
    after the other without an explicit service hold the same service, which
    is the stored default service. *)
Theorem getDefaultService_returns_the_stored_instance w :
  (∀ d, defaultService w = Some d → getDefaultService env w = (Normal d, w)) ∧
  (defaultService w = None →
   getDefaultService env w =
     match bind (ServiceBuilder_new env None) (build env) w with
     | (Normal s, w') => (Normal s, set_defaultService (Some s) w')
     | (Throw e, w') => (Throw e, w')
     end) ∧
  (∀ exe, defaultService w = None →
     io_findInPath env EDGEDRIVER_EXE true = Some exe → exe ≠ "" →
     fs_existsSync env exe = true →
     ∃ s sv w',
       getDefaultService env w = (Normal s, w') ∧
       heap w !! s = None ∧
       heap w' !! s = Some (ODriverService sv) ∧
       ds_exe sv = exe ∧ ds_running sv = false) ∧
  (∀ s w', getDefaultService env w = (Normal s, w') →
     defaultService w' = Some s ∧
     getDefaultService env w' = (Normal s, w')) ∧
  (∀ cfg1 cfg2 flow1 flow2 d1 w1 d2 w2,
     Driver_new env cfg1 None flow1 w = (Normal d1, w1) →
     Driver_new env cfg2 None flow2 w1 = (Normal d2, w2) →
     ∃ s dr1 dr2,
       heap w2 !! d1 = Some (ODriver dr1) ∧
       heap w2 !! d2 = Some (ODriver dr2) ∧
       drv_service dr1 = s ∧ drv_service dr2 = s ∧
       defaultService w1 = Some s ∧ defaultService w2 = Some s).
Proof.
  split; [|split; [|split; [|split]]].
  - apply getDefaultService_stored.
  - apply getDefaultService_unset.
  - intros exe Hd Hfind Hne Hex.
    rewrite (getDefaultService_unset _ Hd).
    rewrite (default_build_eq _ _ Hfind Hne Hex).
    exists (S (length (heap w))),
      {| ds_exe := exe; ds_loopback := true; ds_path := None;
         ds_port := portprober_findFreePort env (trace w);
         ds_args := ["--port=" +:+
                     pretty (portprober_findFreePort env (trace w))];
         ds_env := None; ds_stdio := StdioName "ignore";
         ds_running := false |}.
    eexists. split; [reflexivity|]. cbn [heap set_defaultService].
    split; [apply lookup_ge_None_2; lia|].
    split; [|split; reflexivity].
    rewrite lookup_app_r by lia.
    by replace (S (length (heap w)) - length (heap w))%nat with 1%nat by lia.
  - intros s w' Hget.
    destruct (getDefaultService_result _ _ _ Hget) as (Hd & _ & _).
    split; [done|]. by apply getDefaultService_stored.
  - intros cfg1 cfg2 flow1 flow2 d1 w1 d2 w2 Hnew1 Hnew2.
    rewrite Driver_new_default in Hnew1.
    destruct (getDefaultService env w) as [[s|e] w0] eqn:Hget;
      [|by injection Hnew1].
    destruct (getDefaultService_result _ _ _ Hget) as (Hd0 & _ & _).
    destruct (Driver_new_service _ _ _ _ _ _ Hnew1)
      as (sv1 & dr1 & caps1 & _ & Hd1 & Hs1 & Hsv1 & Hdef1 & _ & _).
    rewrite Driver_new_default in Hnew2.
    rewrite (getDefaultService_stored w1 s) in Hnew2 by congruence.
    destruct (Driver_new_service _ _ _ _ _ _ Hnew2)
      as (sv2 & dr2 & caps2 & _ & Hd2 & Hs2 & _ & Hdef2 & _ & Hframe).
    exists s, dr1, dr2. split.
    { apply Hframe; [done|]. intros ->. congruence. }
    repeat split; congruence.
Qed.

Lemma Driver_quit_eq w this service :
  is_driver w this service →
  ∃ sv,
    heap w !! service = Some (ODriverService sv) ∧
    Driver_quit env this w =
      (Normal
         (match service_kill_outcome env (trace w ++ [EvSessionQuit this]) with
          | Fulfilled _ => webdriver_quit_outcome env (trace w)
          | Rejected e => Rejected e
          end),
       {| heap := <[service := ODriverService (set_running false sv)]> (heap w);
          defaultService := defaultService w;
          trace := trace w ++ [EvSessionQuit this; EvKill service] |}).
Proof.
  intros (d & sv & Hthis & <- & Hs). exists sv. split; [done|].
  unfold Driver_quit, WebDriver_quit. run.
  unfold thenFinally, add_event. cbn [heap trace defaultService].
  erewrite DriverService_kill_eq by heap_solve.
  cbn [heap trace defaultService]. rewrite <- app_assoc.
  by destruct (service_kill_outcome env (trace w ++ [EvSessionQuit this])).
Qed.

(** C1.  A Driver that the constructor returned is a Driver instance whose
    service is the one resolved at construction: the service supplied, or
    else the default service.  On every Driver instance, [quit()] returns a
    promise, having first invoked the inherited session quit and then
    [kill()] on that service, which is then not running; this is so whatever
    the outcome of the session quit, in particular when it is rejected. *)
Theorem Driver_quit_kills_service_regardless :
  (∀ cfg opt_service flow w0 this w,
     Driver_new env cfg opt_service flow w0 = (Normal this, w) →
     ∃ service,
       is_driver w this service ∧
       match opt_service with
       | Some s => service = s
       | None => defaultService w = Some service
       end) ∧
  (∀ w this service,
     is_driver w this service →
     ∃ p w' sv,
       Driver_quit env this w = (Normal p, w') ∧
       trace w' = trace w ++ [EvSessionQuit this; EvKill service] ∧
       heap w !! service = Some (ODriverService sv) ∧
       heap w' = <[service := ODriverService (set_running false sv)]> (heap w) ∧
       defaultService w' = defaultService w ∧
       (∀ v, service_kill_outcome env (trace w ++ [EvSessionQuit this]) =
               Fulfilled v →
             p = webdriver_quit_outcome env (trace w))) ∧
  (∀ w this service e,
     is_driver w this service →
     webdriver_quit_outcome env (trace w) = Rejected e →
     ∃ p w',
       Driver_quit env this w = (Normal p, w') ∧
       trace w' = trace w ++ [EvSessionQuit this; EvKill service]).
Proof.
  split; [|split].
  - intros cfg opt_service flow w0 this w Hnew.
    destruct opt_service as [s|].
    + destruct (Driver_new_service _ _ _ _ _ _ Hnew)
        as (sv & d & caps & _ & Hd & Hs & Hsv & _).
      exists s. split; [|done]. by exists d, (set_running true sv).
    + rewrite Driver_new_default in Hnew.
      destruct (getDefaultService env w0) as [[s|e] w1] eqn:Hget;
        [|by injection Hnew].
      destruct (getDefaultService_result _ _ _ Hget) as (Hd1 & _ & _).
      destruct (Driver_new_service _ _ _ _ _ _ Hnew)
        as (sv & d & caps & _ & Hd & Hs & Hsv & Hdef & _).
      exists s. split; [|congruence]. by exists d, (set_running true sv).
  - intros w this service Hdrv.
    destruct (Driver_quit_eq _ _ _ Hdrv) as (sv & Hs & Hquit).
    do 3 eexists. split; [exact Hquit|]. cbn [heap trace defaultService].
    repeat split; try done. by intros v ->.
  - intros w this service e Hdrv _.
    destruct (Driver_quit_eq _ _ _ Hdrv) as (sv & Hs & Hquit).
    do 2 eexists. split; [exact Hquit|]. done.
Qed.

(** * Further properties of the module *)

(** ** Options *)

Lemma lower_ascii_string_idempotent s :
  lower_ascii_string (lower_ascii_string s) = lower_ascii_string s.
Proof. apply lower_ascii_string_fixed, lower_ascii_string_no_upper. Qed.

Lemma serialize_loop_empty : serialize_loop (map_to_list (∅ : gmap string value)) ∅ = ∅.
Proof. by rewrite map_to_list_empty. Qed.

(** X1.  A new Options instance is empty: [serialize()] on it gives the empty
    object, and [toCapabilities()] gives a new default Edge capabilities map
    on which no [set] call was made. *)
Theorem new_Options_is_empty w :
  bind Options_new serialize w =
    (Normal ∅,
     set_heap (heap w ++ [OOptions {| options_ := ∅; proxy_ := VNull |}]) w) ∧
  bind Options_new (λ options, toCapabilities options None) w =
    (Normal (S (length (heap w))),
     set_heap (heap w ++ [OOptions {| options_ := ∅; proxy_ := VNull |};
                          OCapabilities caps_edge]) w).
Proof.
  split.
  - rewrite bind_unfold. unfold Options_new, alloc. mred.
    erewrite serialize_eq by heap_solve. cbn [options_].
    by rewrite serialize_loop_empty.
  - rewrite bind_unfold. unfold Options_new, alloc. mred.
    erewrite toCapabilities_fresh_eq by heap_solve.
    unfold merge_calls, set_heap.
    cbn [heap trace defaultService options_ proxy_ to_boolean].
    rewrite map_to_list_empty, app_nil_r, length_app, <- app_assoc.
    cbn [length app fmap list_fmap fold_left map].
    by rewrite Nat.add_1_r.
Qed.

(** X2.  [setProxy(proxy)] followed by [toCapabilities(base)]: the base is
    returned; when the proxy is truthy the first call made on the base is
    [set(PROXY, proxy)] and, no setting being keyed like the proxy, [get]
    then answers that proxy; when the proxy is falsy (null, say) no call is
    made for it, so the proxy capability of the base is not cleared. *)
Theorem setProxy_then_toCapabilities w this o base c proxy :
  CapabilitiesLaws C →
  heap w !! this = Some (OOptions o) →
  heap w !! base = Some (OCapabilities c) →
  options_ o !! PROXY = None →
  ∃ c' w',
    bind (setProxy this proxy) (λ t, toCapabilities t (Some base)) w =
      (Normal base, w') ∧
    heap w' !! base = Some (OCapabilities c') ∧
    heap w' !! this =
      Some (OOptions {| options_ := options_ o; proxy_ := proxy |}) ∧
    trace w' =
      trace w ++
      (if to_boolean proxy then [EvSet base PROXY proxy] else []) ++
      map (λ kv, EvSet base kv.1 kv.2) (map_to_list (options_ o)) ∧
    (to_boolean proxy = true →
     caps_get c' PROXY = proxy ∧ caps_has c' PROXY = true) ∧
    (to_boolean proxy = false →
     caps_get c' PROXY = caps_get c PROXY ∧
     caps_has c' PROXY = caps_has c PROXY).
Proof.
  intros Hlaws Hthis Hbase Hkey.
  assert (Hne : base ≠ this) by (intros ->; congruence).
  do 2 eexists. split.
  { rewrite bind_unfold, (setProxy_eq _ _ _ _ Hthis). mred.
    erewrite toCapabilities_eq; [reflexivity | heap_solve |].
    mred. by rewrite list_lookup_insert_ne. }
  mred.
  split; [apply heap_insert_same with (x := OCapabilities c);
          by rewrite list_lookup_insert_ne|].
  split; [rewrite list_lookup_insert_ne by done; heap_solve|].
  split; [reflexivity|].
  destruct (merged_onto_fold {| options_ := options_ o; proxy_ := proxy |} c Hlaws)
    as (_ & Hproxy & Hother).
  cbn [options_ proxy_] in Hproxy, Hother. split.
  - intros Hp. by apply Hproxy.
  - intros Hp. by apply Hother.
Qed.

(** X3.  The two setters of Options commute: [setProxy(proxy)] followed by
    [setPageLoadStrategy(s)] leaves the same world, and returns the same
    instance, as the two calls in the other order. *)
Theorem setProxy_setPageLoadStrategy_commute w this o proxy s :
  heap w !! this = Some (OOptions o) →
  bind (setProxy this proxy) (λ t, setPageLoadStrategy toLowerCase t s) w =
    bind (setPageLoadStrategy toLowerCase this s) (λ t, setProxy t proxy) w ∧
  bind (setProxy this proxy) (λ t, setPageLoadStrategy toLowerCase t s) w =
    (Normal this,
     set_heap (<[this := OOptions
                   {| options_ := <[PAGE_LOAD_STRATEGY := VStr (toLowerCase s)]>
                                    (options_ o);
                      proxy_ := proxy |}]> (heap w)) w).
Proof.
  intros Hthis.
  assert (Hfirst :
    bind (setProxy this proxy) (λ t, setPageLoadStrategy toLowerCase t s) w =
      (Normal this,
       set_heap (<[this := OOptions
                     {| options_ := <[PAGE_LOAD_STRATEGY := VStr (toLowerCase s)]>
                                      (options_ o);
                        proxy_ := proxy |}]> (heap w)) w)).
  { rewrite bind_unfold, (setProxy_eq _ _ _ _ Hthis). mred.
    erewrite setPageLoadStrategy_eq by heap_solve.
    mred. unfold set_heap. cbn [heap defaultService trace].
    by rewrite list_insert_insert_eq. }
  split; [|exact Hfirst]. rewrite Hfirst.
  rewrite bind_unfold, (setPageLoadStrategy_eq _ _ _ _ Hthis). mred.
  erewrite setProxy_eq by heap_solve.
  mred. unfold set_heap. cbn [heap defaultService trace].
  by rewrite list_insert_insert_eq.
Qed.

(** X4.  The last call of [setPageLoadStrategy] wins: a call after another
    one leaves the world that the second call alone would leave, whatever the
    strings.  And, given that [String.prototype.toLowerCase] lower-cases the
    letters A to Z of a string of ASCII characters and keeps the others, the
    case of such an argument does not matter: two strings of ASCII characters
    that differ in the case of their letters only leave the same world, and
    so do a string of ASCII characters and that string with its letters A to
    Z lower-cased. *)
Theorem setPageLoadStrategy_normalizes_and_overrides w this o s1 s2 :
  heap w !! this = Some (OOptions o) →
  bind (setPageLoadStrategy toLowerCase this s1)
       (λ t, setPageLoadStrategy toLowerCase t s2) w =
    setPageLoadStrategy toLowerCase this s2 w ∧
  (toLowerCase_on_ascii toLowerCase →
   is_ascii_string s1 = true →
   setPageLoadStrategy toLowerCase this (lower_ascii_string s1) w =
     setPageLoadStrategy toLowerCase this s1 w ∧
   (is_ascii_string s2 = true →
    lower_ascii_string s1 = lower_ascii_string s2 →
    setPageLoadStrategy toLowerCase this s1 w =
      setPageLoadStrategy toLowerCase this s2 w)).
Proof.
  intros Hthis. split.
  - rewrite bind_unfold, (setPageLoadStrategy_eq _ _ _ s1 Hthis). mred.
    erewrite setPageLoadStrategy_eq by heap_solve.
    rewrite (setPageLoadStrategy_eq _ _ _ s2 Hthis).
    mred. unfold set_heap. cbn [heap defaultService trace].
    by rewrite list_insert_insert_eq, insert_insert_eq.
  - intros Hascii Hs1. split.
    + rewrite !(setPageLoadStrategy_eq _ _ _ _ Hthis).
      rewrite (Hascii _ (lower_ascii_string_is_ascii _ Hs1)), (Hascii _ Hs1).
      by rewrite lower_ascii_string_idempotent.
    + intros Hs2 Heq. rewrite !(setPageLoadStrategy_eq _ _ _ _ Hthis).
      by rewrite (Hascii _ Hs1), (Hascii _ Hs2), Heq.
Qed.

Lemma call_setter_eq w this o call :
  heap w !! this = Some (OOptions o) →
  call_setter toLowerCase this call w =
    (Normal tt,
     set_heap (<[this := OOptions
                   match call with
                   | CallSetProxy proxy =>
                       {| options_ := options_ o; proxy_ := proxy |}
                   | CallSetPageLoadStrategy s =>
                       {| options_ := <[PAGE_LOAD_STRATEGY :=
                                          VStr (toLowerCase s)]> (options_ o);
                          proxy_ := proxy_ o |}
                   end]> (heap w)) w).
Proof.
  intros Hthis. unfold call_setter. destruct call as [proxy|s].
  - by rewrite bind_unfold, (setProxy_eq _ _ _ _ Hthis).
  - by rewrite bind_unfold, (setPageLoadStrategy_eq _ _ _ _ Hthis).
Qed.

Lemma only_strategy_serialize o k v :
  only_strategy o →
  serialize_loop (map_to_list (options_ o)) ∅ !! k = Some v →
  k = PAGE_LOAD_STRATEGY.
Proof.
  intros Honly [Hk _]%serialize_map_lookup.
  destruct (decide (k = PAGE_LOAD_STRATEGY)) as [|Hne]; [done|].
  rewrite (Honly k Hne) in Hk. discriminate Hk.
Qed.

(** X5.  The settings of an Options instance never hold a key other than
    pageLoadStrategy: that is so for a new instance and for the one
    [fromCapabilities] returns, and every sequence of setter calls keeps it
    so, changing no other object and making no call on a collaborator.
    Hence [serialize()] has no key but pageLoadStrategy after any such
    sequence. *)
Theorem Options_settings_hold_only_the_strategy w :
  (∃ this o w',
     Options_new w = (Normal this, w') ∧
     heap w' !! this = Some (OOptions o) ∧ only_strategy o) ∧
  (∀ capabilities c, heap w !! capabilities = Some (OCapabilities c) →
     ∃ this o w',
       fromCapabilities capabilities w = (Normal this, w') ∧
       heap w' !! this = Some (OOptions o) ∧ only_strategy o) ∧
  (∀ calls this o,
     heap w !! this = Some (OOptions o) → only_strategy o →
     ∃ o' json,
       forEach calls (call_setter toLowerCase this) w =
         (Normal tt, set_heap (<[this := OOptions o']> (heap w)) w) ∧
       only_strategy o' ∧
       serialize this (set_heap (<[this := OOptions o']> (heap w)) w) =
         (Normal json, set_heap (<[this := OOptions o']> (heap w)) w) ∧
       ∀ k v, json !! k = Some v → k = PAGE_LOAD_STRATEGY).
Proof.
  split; [|split].
  - do 3 eexists. split; [reflexivity|]. split; [heap_solve|].
    intros k _. apply lookup_empty.
  - intros capabilities c Hc. do 3 eexists.
    split; [by apply fromCapabilities_eq|]. split; [heap_solve|].
    intros k Hne. cbn [options_].
    destruct (caps_has c PAGE_LOAD_STRATEGY);
      [by apply lookup_singleton_ne | apply lookup_empty].
  - intros calls. revert w.
    induction calls as [|call calls IH]; intros w this o Hthis Honly.
    + exists o. eexists. cbn [forEach]. unfold ret.
      rewrite (heap_insert_id _ _ _ Hthis), set_heap_id.
      split; [done|]. split; [done|]. split; [by apply serialize_eq|].
      intros k v. by apply only_strategy_serialize.
    + cbn [forEach]. rewrite bind_unfold, (call_setter_eq _ _ _ _ Hthis).
      mred.
      set (o1 := match call with
                 | CallSetProxy proxy =>
                     {| options_ := options_ o; proxy_ := proxy |}
                 | CallSetPageLoadStrategy s =>
                     {| options_ := <[PAGE_LOAD_STRATEGY :=
                                        VStr (toLowerCase s)]> (options_ o);
                        proxy_ := proxy_ o |}
                 end).
      destruct (IH (set_heap (<[this := OOptions o1]> (heap w)) w) this o1)
        as (o' & json & Hrun & Honly' & Hser & Hjson).
      { heap_solve. }
      { unfold o1. destruct call as [proxy|s]; intros k Hne; cbn [options_].
        - by apply Honly.
        - rewrite lookup_insert_ne by done. by apply Honly. }
      exists o', json. revert Hrun Hser. mred.
      rewrite list_insert_insert_eq. unfold set_heap.
      cbn [heap defaultService trace]. intros Hrun Hser.
      split; [exact Hrun|]. split; [done|]. split; [exact Hser | exact Hjson].
Qed.

(** X6.  An Options instance that holds a page-load strategy and a truthy
    proxy survives the round trip through a capabilities map: with any base
    that obeys the map laws, [fromCapabilities(toCapabilities(base))]
    returns a new Options instance with the same settings and the same
    proxy. *)
Theorem toCapabilities_fromCapabilities_round_trip w this o base c v :
  CapabilitiesLaws C →
  PROXY ≠ PAGE_LOAD_STRATEGY →
  heap w !! this = Some (OOptions o) →
  heap w !! base = Some (OCapabilities c) →
  options_ o = {[PAGE_LOAD_STRATEGY := v]} →
  to_boolean (proxy_ o) = true →
  ∃ options w',
    bind (toCapabilities this (Some base)) fromCapabilities w =
      (Normal options, w') ∧
    options ≠ this ∧
    heap w' !! options =
      Some (OOptions {| options_ := options_ o; proxy_ := proxy_ o |}) ∧
    heap w' !! this = Some (OOptions o).
Proof.
  intros Hlaws Hkeys Hthis Hbase Hopts Hproxy.
  assert (Hne : base ≠ this) by (intros ->; congruence).
  destruct (merged_onto_fold o c Hlaws) as (Hset & Hpx & _).
  destruct (Hset PAGE_LOAD_STRATEGY v) as [Hget Hhas];
    [by rewrite Hopts, lookup_singleton_eq|].
  destruct (Hpx Hproxy) as [Hgetp Hhasp];
    [by rewrite Hopts, lookup_singleton_ne|].
  do 2 eexists. split.
  { rewrite bind_unfold, (toCapabilities_eq _ _ _ _ _ Hthis Hbase). mred.
    erewrite fromCapabilities_eq by heap_solve.
    rewrite Hget, Hhas, Hgetp, Hhasp. reflexivity. }
  cbn [heap]. rewrite length_insert. split.
  - intros Heq. apply lookup_lt_Some in Hthis. lia.
  - split.
    + rewrite <- (length_insert (heap w) base) at 1.
      rewrite heap_lookup_alloc, Hopts. reflexivity.
    + apply heap_lookup_old. by rewrite list_lookup_insert_ne.
Qed.

(** X7.  [fromCapabilities] asks [has(key)] before it reads: on a
    capabilities map it calls [has] for the page-load strategy and for the
    proxy, in this order, and calls [get(key)] right after a [has(key)] that
    answered true, and only then.  The new Options holds what [get] answered
    for each key the map has, and nothing (a null proxy) for the others. *)
Theorem fromCapabilities_reads_only_what_the_map_has w capabilities c :
  heap w !! capabilities = Some (OCapabilities c) →
  ∃ o w',
    fromCapabilities capabilities w = (Normal (length (heap w)), w') ∧
    heap w' = heap w ++ [OOptions o] ∧
    trace w' =
      trace w ++
      [EvHas capabilities PAGE_LOAD_STRATEGY] ++
      (if caps_has c PAGE_LOAD_STRATEGY
       then [EvGet capabilities PAGE_LOAD_STRATEGY] else []) ++
      [EvHas capabilities PROXY] ++
      (if caps_has c PROXY then [EvGet capabilities PROXY] else []) ∧
    options_ o !! PAGE_LOAD_STRATEGY =
      (if caps_has c PAGE_LOAD_STRATEGY
       then Some (caps_get c PAGE_LOAD_STRATEGY) else None) ∧
    proxy_ o = (if caps_has c PROXY then caps_get c PROXY else VNull) ∧
    (caps_has c PAGE_LOAD_STRATEGY = false → caps_has c PROXY = false →
     o = {| options_ := ∅; proxy_ := VNull |}).
Proof.
  intros Hc. do 2 eexists. split; [by apply fromCapabilities_eq|].
  cbn [heap trace options_ proxy_].
  split; [reflexivity|]. split; [reflexivity|]. split; [|split].
  - destruct (caps_has c PAGE_LOAD_STRATEGY);
      [apply lookup_singleton_eq | apply lookup_empty].
  - reflexivity.
  - by intros -> ->.
Qed.

(** ** ServiceBuilder *)

Lemma setStdio_eq w this b config :
  heap w !! this = Some (OServiceBuilder b) →
  setStdio this config w =
    (Normal this,
     set_heap (<[this := OServiceBuilder
                   {| exe_ := exe_ b; args_ := args_ b; path_ := path_ b;
                      port_ := port_ b; stdio_ := config; env_ := env_ b |}]>
                 (heap w)) w).
Proof. intros Hthis. unfold setStdio. by run. Qed.

Lemma withEnvironment_eq w this b e :
  heap w !! this = Some (OServiceBuilder b) →
  withEnvironment this e w =
    (Normal this,
     set_heap (<[this := OServiceBuilder
                   {| exe_ := exe_ b; args_ := args_ b; path_ := path_ b;
                      port_ := port_ b; stdio_ := stdio_ b; env_ := Some e |}]>
                 (heap w)) w).
Proof. intros Hthis. unfold withEnvironment. by run. Qed.

Lemma usingPort_eq w this b port :
  heap w !! this = Some (OServiceBuilder b) → 0 ≤ port →
  usingPort this port w =
    (Normal this,
     set_heap (<[this := OServiceBuilder
                   {| exe_ := exe_ b; args_ := args_ b; path_ := path_ b;
                      port_ := port; stdio_ := stdio_ b; env_ := env_ b |}]>
                 (heap w)) w).
Proof.
  intros Hthis Hpos. unfold usingPort.
  rewrite (proj2 (Z.ltb_ge port 0) Hpos). by run.
Qed.

(** X8.  The setters of a builder chain and do not depend on their order:
    [usingPort(port).setStdio(config).withEnvironment(e)], for a port that is
    not negative, returns the builder it started from, with the port, the
    stdio configuration and the environment replaced and the executable, the
    arguments and the path as they were; the calls in the reverse order leave
    the same world. *)
Theorem ServiceBuilder_setters_chain_in_any_order w this b port config e :
  heap w !! this = Some (OServiceBuilder b) →
  0 ≤ port →
  bind (usingPort this port)
    (λ t, bind (setStdio t config) (λ t', withEnvironment t' e)) w =
    (Normal this,
     set_heap (<[this := OServiceBuilder
                   {| exe_ := exe_ b; args_ := args_ b; path_ := path_ b;
                      port_ := port; stdio_ := config; env_ := Some e |}]>
                 (heap w)) w) ∧
  bind (withEnvironment this e)
    (λ t, bind (setStdio t config) (λ t', usingPort t' port)) w =
    bind (usingPort this port)
      (λ t, bind (setStdio t config) (λ t', withEnvironment t' e)) w.
Proof.
  intros Hthis Hpos.
  assert (Hfwd :
    bind (usingPort this port)
      (λ t, bind (setStdio t config) (λ t', withEnvironment t' e)) w =
      (Normal this,
       set_heap (<[this := OServiceBuilder
                     {| exe_ := exe_ b; args_ := args_ b; path_ := path_ b;
                        port_ := port; stdio_ := config; env_ := Some e |}]>
                   (heap w)) w)).
  { rewrite bind_unfold, (usingPort_eq _ _ _ _ Hthis Hpos). mred.
    rewrite bind_unfold. erewrite setStdio_eq by heap_solve. mred.
    erewrite withEnvironment_eq
      by (mred; eapply heap_insert_same; heap_solve). mred.
    unfold set_heap. cbn [heap defaultService trace exe_ args_ path_ port_
                            stdio_ env_].
    by rewrite !list_insert_insert_eq. }
  split; [exact Hfwd|]. rewrite Hfwd.
  rewrite bind_unfold, (withEnvironment_eq _ _ _ _ Hthis). mred.
  rewrite bind_unfold. erewrite setStdio_eq by heap_solve. mred.
  erewrite usingPort_eq
    by (first [mred; eapply heap_insert_same; heap_solve | done]). mred.
  unfold set_heap. cbn [heap defaultService trace exe_ args_ path_ port_
                          stdio_ env_].
  by rewrite !list_insert_insert_eq.
Qed.


(** X10.  [build()] may be called again on the same builder: two calls make
    two services at different addresses.  With a stored port other than 0
    the two services have the same configuration and the port prober is not
    asked; with the stored port 0 the prober is asked once for each. *)
Theorem build_twice w this b :
  heap w !! this = Some (OServiceBuilder b) →
  ∃ s1 s2 w',
    bind (build env this) (λ _, build env this) w =
      (Normal (S (length (heap w))), w') ∧
    heap w' = heap w ++ [ODriverService s1; ODriverService s2] ∧
    (port_ b ≠ 0 → s1 = s2 ∧ trace w' = trace w) ∧
    (port_ b = 0 →
     trace w' = trace w ++ [EvFindFreePort (ds_port s1);
                            EvFindFreePort (ds_port s2)]).
Proof.
  intros Hthis. do 3 eexists. split.
  { rewrite bind_unfold, (build_eq _ _ _ Hthis). mred.
    erewrite build_eq by (cbn [heap]; apply heap_lookup_old; exact Hthis).
    cbn [heap defaultService trace]. rewrite length_app, <- app_assoc.
    cbn [length app]. rewrite Nat.add_1_r. reflexivity. }
  cbn [heap trace ds_port]. split; [reflexivity|]. split.
  - intros Hne. rewrite (proj2 (Z.eqb_neq _ _) Hne). done.
  - intros ->. cbn [Z.eqb]. by rewrite <- app_assoc.
Qed.

(** ** The default service *)

(** X11.  What [setDefaultService(service)] stores is what
    [getDefaultService()] returns: when the call is allowed (the stored
    service, if any, is not running), a following [getDefaultService()]
    returns the service just stored, builds nothing and makes no call on a
    collaborator, whether or not the driver executable can be found. *)
Theorem setDefaultService_then_getDefaultService w service :
  default_service_ok w →
  ¬ default_service_live w →
  bind (setDefaultService (Some service)) (λ _, getDefaultService env) w =
    (Normal service, set_defaultService (Some service) w).
Proof.
  intros Hok Hnot.
  assert (Hset : setDefaultService (Some service) w =
                   (Normal tt, set_defaultService (Some service) w)).
  { unfold setDefaultService.
    destruct (defaultService w) as [d|] eqn:Hd; [|done].
    destruct (Hok d Hd) as [sv Hsv].
    rewrite bind_unfold, (DriverService_isRunning_eq _ _ _ Hsv).
    destruct (ds_running sv) eqn:Hrun; [|done].
    destruct Hnot. exists d. split; [done|].
    by rewrite (DriverService_isRunning_eq _ _ _ Hsv), Hrun. }
  rewrite bind_unfold, Hset. by apply getDefaultService_stored.
Qed.

(** X12.  Without the driver executable there is no default service: when
    none is stored and the executable is not found on the PATH,
    [getDefaultService()] throws the not-found error and so does
    [new Driver(config)] without a service; in both cases the world is as
    before, so nothing is stored, no service is started and no session is
    created. *)
Theorem default_service_needs_the_executable w cfg flow :
  defaultService w = None →
  io_findInPath env EDGEDRIVER_EXE true = None →
  getDefaultService env w = (Throw (JsError exe_not_found_message), w) ∧
  Driver_new env cfg None flow w = (Throw (JsError exe_not_found_message), w).
Proof.
  intros Hd Hfind.
  assert (Hget : getDefaultService env w =
                   (Throw (JsError exe_not_found_message), w)).
  { rewrite (getDefaultService_unset _ Hd), bind_unfold.
    unfold ServiceBuilder_new. cbn [str_or]. by rewrite Hfind. }
  split; [exact Hget|]. by rewrite Driver_new_default, Hget.
Qed.

(** X13.  After [setDefaultService(null)] the next [getDefaultService()]
    builds a new service: when the stored service is not running and the
    driver executable is found and exists, the call returns a service at an
    address that held no object before, so a service other than the one
    that was stored, and stores it. *)
Theorem resetting_the_default_service_builds_a_new_one w exe :
  default_service_ok w →
  ¬ default_service_live w →
  io_findInPath env EDGEDRIVER_EXE true = Some exe → exe ≠ "" →
  fs_existsSync env exe = true →
  ∃ s sv w',
    bind (setDefaultService None) (λ _, getDefaultService env) w =
      (Normal s, w') ∧
    heap w !! s = None ∧
    defaultService w ≠ Some s ∧
    heap w' !! s = Some (ODriverService sv) ∧
    ds_exe sv = exe ∧ ds_running sv = false ∧
    defaultService w' = Some s.
Proof.
  intros Hok Hnot Hfind Hne Hex.
  assert (Hset : setDefaultService None w =
                   (Normal tt, set_defaultService None w)).
  { unfold setDefaultService.
    destruct (defaultService w) as [d|] eqn:Hd; [|done].
    destruct (Hok d Hd) as [sv Hsv].
    rewrite bind_unfold, (DriverService_isRunning_eq _ _ _ Hsv).
    destruct (ds_running sv) eqn:Hrun; [|done].
    destruct Hnot. exists d. split; [done|].
    by rewrite (DriverService_isRunning_eq _ _ _ Hsv), Hrun. }
  exists (S (length (heap w))),
    {| ds_exe := exe; ds_loopback := true; ds_path := None;
       ds_port := portprober_findFreePort env (trace w);
       ds_args := ["--port=" +:+
                   pretty (portprober_findFreePort env (trace w))];
       ds_env := None; ds_stdio := StdioName "ignore";
       ds_running := false |}.
  eexists. split.
  { rewrite bind_unfold, Hset.
    rewrite (getDefaultService_unset (set_defaultService None w)) by done.
    rewrite (default_build_eq _ _ Hfind Hne Hex). reflexivity. }
  cbn [heap defaultService set_defaultService trace].
  split; [apply lookup_ge_None_2; lia|].
  split.
  { intros Hd. destruct (Hok _ Hd) as [sv Hsv].
    apply lookup_lt_Some in Hsv. lia. }
  split; [|done].
  rewrite lookup_app_r by lia.
  by replace (S (length (heap w)) - length (heap w))%nat with 1%nat by lia.
Qed.

(** ** toCapabilities, again *)

Lemma merged_onto_again o c c' c'' :
  merged_onto o c c' → merged_onto o c' c'' →
  merged_onto o c c'' ∧
  ∀ k, caps_get c'' k = caps_get c' k ∧ caps_has c'' k = caps_has c' k.
Proof.
  intros (Hset1 & Hpx1 & Hoth1) (Hset2 & Hpx2 & Hoth2).
  assert (Hsame : ∀ k, caps_get c'' k = caps_get c' k ∧
                       caps_has c'' k = caps_has c' k).
  { intros k. destruct (options_ o !! k) as [v|] eqn:Hk.
    - destruct (Hset1 k v Hk) as [-> ->]. by destruct (Hset2 k v Hk) as [-> ->].
    - destruct (decide (k = PROXY ∧ to_boolean (proxy_ o) = true))
        as [[-> Hp]|Hn].
      + destruct (Hpx1 Hp Hk) as [-> ->]. by destruct (Hpx2 Hp Hk) as [-> ->].
      + apply Hoth2; [done|]. intros ->.
        destruct (to_boolean (proxy_ o)); [|done]. by destruct Hn. }
  split; [|exact Hsame]. split; [|split].
  - intros k v Hk. by apply Hset2.
  - intros Hp Hk. by apply Hpx2.
  - intros k Hk Hp. destruct (Hsame k) as [-> ->]. by apply Hoth1.
Qed.

(** X14.  [toCapabilities(base)] may be repeated: a second call onto the same
    base returns the base again and makes the same [set] calls again, and,
    with the map laws, the base then answers [has] and [get] for every key as
    it did after the first call. *)
Theorem toCapabilities_twice w this o base c :
  CapabilitiesLaws C →
  heap w !! this = Some (OOptions o) →
  heap w !! base = Some (OCapabilities c) →
  ∃ c' c'' w1 w2,
    toCapabilities this (Some base) w = (Normal base, w1) ∧
    heap w1 !! base = Some (OCapabilities c') ∧
    toCapabilities this (Some base) w1 = (Normal base, w2) ∧
    heap w2 = <[base := OCapabilities c'']> (heap w) ∧
    trace w2 = trace w ++ merge_calls base o ++ merge_calls base o ∧
    merged_onto o c c'' ∧
    ∀ k, caps_get c'' k = caps_get c' k ∧ caps_has c'' k = caps_has c' k.
Proof.
  intros Hlaws Hthis Hbase.
  assert (Hne : base ≠ this) by (intros ->; congruence).
  do 4 eexists.
  split; [by apply toCapabilities_eq|].
  split; [cbn [heap]; by eapply heap_insert_same|].
  split.
  { apply toCapabilities_eq.
    - cbn [heap]. by rewrite list_lookup_insert_ne.
    - cbn [heap]. by eapply heap_insert_same. }
  cbn [heap trace]. split; [by rewrite list_insert_insert_eq|].
  split; [by rewrite <- app_assoc|].
  eapply merged_onto_again; by apply merged_onto_fold.
Qed.

(** ** Driver, again *)

Lemma Driver_new_no_config_eq w service sv flow :
  heap w !! service = Some (ODriverService sv) →
  Driver_new env None (Some service) flow w =
    (Normal (S (length (heap w))),
     {| heap := <[service := ODriverService (set_running true sv)]> (heap w) ++
          [OCapabilities caps_edge;
           ODriver {| drv_service := service; drv_executor := service;
                      drv_capabilities := length (heap w);
                      drv_flow := flow |}];
        defaultService := defaultService w;
        trace := trace w ++
          [EvStart service; EvCreateExecutor service;
           EvCreateSession service (length (heap w))] |}).
Proof.
  intros Hs. rewrite (Driver_new_eq _ _ _ _ _ Hs).
  unfold Capabilities_edge, alloc, set_heap. cbn [heap defaultService trace].
  rewrite length_app, length_insert, <- !app_assoc. cbn [length app].
  by rewrite Nat.add_1_r.
Qed.

(** X15.  How [new Driver(config, service)] finds its capabilities, the
    service being a DriverService: the service is started, then the executor
    is created from it, then the session is created, in this order, and the
    default service is not touched (nor is the executable looked for).
    Without a configuration the session gets a new default Edge map; with a
    capabilities map it gets that very object, on which no call is made;
    with an Options instance it gets a new map on which the proxy and the
    settings of the instance are set, the instance itself being left as it
    was. *)
Theorem Driver_new_resolves_capabilities w service sv flow :
  heap w !! service = Some (ODriverService sv) →
  Driver_new env None (Some service) flow w =
    (Normal (S (length (heap w))),
     {| heap := <[service := ODriverService (set_running true sv)]> (heap w) ++
          [OCapabilities caps_edge;
           ODriver {| drv_service := service; drv_executor := service;
                      drv_capabilities := length (heap w);
                      drv_flow := flow |}];
        defaultService := defaultService w;
        trace := trace w ++
          [EvStart service; EvCreateExecutor service;
           EvCreateSession service (length (heap w))] |}) ∧
  (∀ cfg c, heap w !! cfg = Some (OCapabilities c) →
     Driver_new env (Some cfg) (Some service) flow w =
       (Normal (length (heap w)),
        {| heap := <[service := ODriverService (set_running true sv)]> (heap w) ++
             [ODriver {| drv_service := service; drv_executor := service;
                         drv_capabilities := cfg; drv_flow := flow |}];
           defaultService := defaultService w;
           trace := trace w ++
             [EvStart service; EvCreateExecutor service;
              EvCreateSession service cfg] |})) ∧
  (∀ cfg o, heap w !! cfg = Some (OOptions o) →
     ∃ c',
       Driver_new env (Some cfg) (Some service) flow w =
         (Normal (S (length (heap w))),
          {| heap := <[service := ODriverService (set_running true sv)]> (heap w) ++
               [OCapabilities c';
                ODriver {| drv_service := service; drv_executor := service;
                           drv_capabilities := length (heap w);
                           drv_flow := flow |}];
             defaultService := defaultService w;
             trace := trace w ++
               [EvStart service; EvCreateExecutor service] ++
               merge_calls (length (heap w)) o ++
               [EvCreateSession service (length (heap w))] |}) ∧
       (CapabilitiesLaws C → merged_onto o caps_edge c')).
Proof.
  intros Hs. split; [|split].
  - by apply Driver_new_no_config_eq.
  - intros cfg c Hc.
    assert (Hne : service ≠ cfg) by (intros ->; congruence).
    rewrite (Driver_new_eq _ _ _ _ _ Hs), bind_unfold.
    unfold instanceof_Options. cbn [heap].
    rewrite list_lookup_insert_ne by done. rewrite Hc. unfold ret.
    cbn [heap defaultService trace].
    by rewrite length_insert, <- !app_assoc.
  - intros cfg o Hc.
    assert (Hne : service ≠ cfg) by (intros ->; congruence).
    eexists. split.
    + rewrite (Driver_new_eq _ _ _ _ _ Hs), bind_unfold.
      unfold instanceof_Options. cbn [heap].
      rewrite list_lookup_insert_ne by done. rewrite Hc.
      erewrite toCapabilities_fresh_eq
        by (cbn [heap]; rewrite list_lookup_insert_ne by done; exact Hc).
      cbn [heap defaultService trace].
      rewrite length_app, length_insert, <- !app_assoc. cbn [length app].
      by rewrite Nat.add_1_r.
    + intros Hlaws. by apply merged_onto_fold.
Qed.

(** X16.  [quit()] keeps the Driver and the default service reference: after
    [quit()] on a Driver that holds the default service, whether the call
    returns or throws, the same service is still stored, the Driver still
    holds it, and [getDefaultService()] returns it without building
    another. *)
Theorem Driver_quit_keeps_the_default_service w this service :
  is_driver w this service →
  defaultService w = Some service →
  ∃ r w',
    Driver_quit env this w = (r, w') ∧
    defaultService w' = Some service ∧
    is_driver w' this service ∧
    getDefaultService env w' = (Normal service, w').
Proof.
  intros Hdrv Hdef.
  destruct (Driver_quit_eq _ _ _ Hdrv) as (sv & Hs & Hquit).
  do 2 eexists. split; [exact Hquit|]. cbn [defaultService].
  split; [done|]. split.
  - destruct Hdrv as (d & sv' & Hthis & Hd & Hsv').
    exists d, (set_running false sv). cbn [heap].
    assert (service ≠ this) by (intros ->; congruence).
    split; [by rewrite list_lookup_insert_ne|]. split; [done|].
    by eapply heap_insert_same.
  - by apply getDefaultService_stored.
Qed.

(** ** Conversions between Options and capabilities, again *)

(** X17.  On an empty Options instance (no setting, no truthy proxy)
    [toCapabilities(base)] is the identity: it returns the base it is given,
    whatever that is, makes no call on it and changes nothing. *)
Theorem toCapabilities_of_empty_Options_is_identity w this o base :
  heap w !! this = Some (OOptions o) →
  options_ o = ∅ →
  to_boolean (proxy_ o) = false →
  toCapabilities this (Some base) w = (Normal base, w).
Proof.
  intros Hthis Hempty Hp. unfold toCapabilities. run.
  rewrite Hp, Hempty, map_to_list_empty. cbn [fmap list_fmap forEach].
  by run.
Qed.

Lemma set_all_get_other (m : gmap string value) keys c k :
  (∀ c k k' v, k ≠ k' → caps_get (caps_set c k v) k' = caps_get c k') →
  k ∉ keys →
  caps_get (fold_left (λ c k, caps_set c k (default VUndefined (m !! k))) keys c) k
    = caps_get c k.
Proof.
  intros Hne. revert c. induction keys as [|k0 keys IH]; intros c Hk; [done|].
  apply not_elem_of_cons in Hk as [Hk0 Hk]. cbn [fold_left].
  rewrite (IH _ Hk). by apply Hne.
Qed.

Lemma set_all_get_member (m : gmap string value) keys c k v :
  (∀ c k v, v ≠ VNull → v ≠ VUndefined → caps_get (caps_set c k v) k = v) →
  (∀ c k k' v, k ≠ k' → caps_get (caps_set c k v) k' = caps_get c k') →
  NoDup keys → k ∈ keys →
  m !! k = Some v → v ≠ VNull → v ≠ VUndefined →
  caps_get (fold_left (λ c k, caps_set c k (default VUndefined (m !! k))) keys c) k
    = v.
Proof.
  intros Hset Hne. revert c.
  induction keys as [|k0 keys IH]; intros c Hnd Hk Hm Hv1 Hv2.
  - by apply elem_of_nil in Hk.
  - apply NoDup_cons in Hnd as [Hk0 Hnd]. cbn [fold_left].
    apply elem_of_cons in Hk as [->|Hk].
    + rewrite (set_all_get_other _ _ _ _ Hne Hk0), Hm. cbn [default].
      by apply Hset.
    + by apply IH.
Qed.

(** X18.  [setPageLoadStrategy(s)] followed by [toCapabilities(base)] puts the
    lower-cased strategy on the base: given that [get] answers a value that
    is neither null nor undefined once it was [set], and that [set] under one
    key leaves what [get] answers under another, [get] on the base then
    answers what [String.prototype.toLowerCase] gave for [s], whatever
    strategy the base or the Options held before. *)
Theorem setPageLoadStrategy_then_toCapabilities w this o base c s :
  (∀ c k v, v ≠ VNull → v ≠ VUndefined → caps_get (caps_set c k v) k = v) →
  (∀ c k k' v, k ≠ k' → caps_get (caps_set c k v) k' = caps_get c k') →
  heap w !! this = Some (OOptions o) →
  heap w !! base = Some (OCapabilities c) →
  ∃ c' w',
    bind (setPageLoadStrategy toLowerCase this s)
         (λ t, toCapabilities t (Some base)) w =
      (Normal base, w') ∧
    heap w' !! base = Some (OCapabilities c') ∧
    caps_get c' PAGE_LOAD_STRATEGY = VStr (toLowerCase s).
Proof.
  intros Hset Hother Hthis Hbase.
  assert (Hne : base ≠ this) by (intros ->; congruence).
  do 2 eexists. split.
  { rewrite bind_unfold, (setPageLoadStrategy_eq _ _ _ _ Hthis). mred.
    erewrite toCapabilities_eq; [reflexivity | heap_solve |].
    mred. by rewrite list_lookup_insert_ne. }
  mred.
  split; [apply heap_insert_same with (x := OCapabilities c);
          by rewrite list_lookup_insert_ne|].
  cbn [options_ proxy_].
  apply set_all_get_member; [done | done | apply NoDup_fst_map_to_list | | | | ].
  - apply map_keys_elem. rewrite lookup_insert_eq. by eexists.
  - apply lookup_insert_eq.
  - done.
  - done.
Qed.

(** X19.  Taking the Options out of a capabilities map and putting them back
    on the same map changes nothing that can be observed: with the map laws,
    after [fromCapabilities(c)] and [toCapabilities(c)] of its result, the map
    answers [has] and [get] for every key as it did before. *)
Theorem fromCapabilities_then_toCapabilities_changes_nothing w capabilities c :
  CapabilitiesLaws C →
  PROXY ≠ PAGE_LOAD_STRATEGY →
  heap w !! capabilities = Some (OCapabilities c) →
  ∃ c' w',
    bind (fromCapabilities capabilities)
      (λ options, toCapabilities options (Some capabilities)) w =
      (Normal capabilities, w') ∧
    heap w' !! capabilities = Some (OCapabilities c') ∧
    ∀ k, caps_get c' k = caps_get c k ∧ caps_has c' k = caps_has c k.
Proof.
  intros Hlaws Hkeys Hc.
  set (o := {| options_ := if caps_has c PAGE_LOAD_STRATEGY
                           then {[PAGE_LOAD_STRATEGY :=
                                    caps_get c PAGE_LOAD_STRATEGY]}
                           else ∅;
               proxy_ := if caps_has c PROXY then caps_get c PROXY
                         else VNull |}).
  do 2 eexists. split.
  { rewrite bind_unfold, (fromCapabilities_eq _ _ _ Hc). mred.
    erewrite (toCapabilities_eq (length (heap w)) o);
      [reflexivity | cbn [heap]; apply heap_lookup_alloc
                   | cbn [heap]; by apply heap_lookup_old]. }
  cbn [heap].
  split; [eapply heap_insert_same; by apply heap_lookup_old|].
  destruct (merged_onto_fold o c Hlaws) as (Hset & Hpx & Hother).
  assert (Hnokey : options_ o !! PROXY = None).
  { unfold o. cbn [options_]. destruct (caps_has c PAGE_LOAD_STRATEGY).
    - by apply lookup_singleton_ne.
    - apply lookup_empty. }
  intros k. destruct (options_ o !! k) as [v|] eqn:Hk.
  - destruct (Hset k v Hk) as [-> ->]. unfold o in Hk. cbn [options_] in Hk.
    destruct (caps_has c PAGE_LOAD_STRATEGY) eqn:Hhas.
    + apply lookup_singleton_Some in Hk as [<- <-]. done.
    + by rewrite lookup_empty in Hk.
  - destruct (decide (k = PROXY ∧ to_boolean (proxy_ o) = true))
      as [[-> Hp]|Hn].
    + destruct (Hpx Hp Hnokey) as [-> ->]. unfold o in Hp |- *.
      cbn [proxy_] in Hp |- *.
      destruct (caps_has c PROXY); [done | discriminate Hp].
    + apply Hother; [done|]. intros ->.
      destruct (to_boolean (proxy_ o)); [|done]. by destruct Hn.
Qed.

(** ** Two Drivers on the default service *)

(** X20.  Every [new Driver()] calls [start()] on its service, also on a
    default service that an earlier Driver started: in a world without a
    default service and with the driver executable installed, two
    [new Driver()] in a row probe a port and build the service once, and
    then each starts the service, creates its executor and creates its
    session on a new default Edge map of its own. *)
Theorem two_Drivers_start_the_default_service_twice w exe flow1 flow2 :
  defaultService w = None →
  io_findInPath env EDGEDRIVER_EXE true = Some exe → exe ≠ "" →
  fs_existsSync env exe = true →
  ∃ w',
    bind (Driver_new env None None flow1)
      (λ _, Driver_new env None None flow2) w =
      (Normal (5 + length (heap w))%nat, w') ∧
    defaultService w' = Some (S (length (heap w))) ∧
    length (heap w') = (6 + length (heap w))%nat ∧
    trace w' =
      trace w ++
      [EvFindFreePort (portprober_findFreePort env (trace w));
       EvStart (S (length (heap w)));
       EvCreateExecutor (S (length (heap w)));
       EvCreateSession (S (length (heap w))) (2 + length (heap w))%nat;
       EvStart (S (length (heap w)));
       EvCreateExecutor (S (length (heap w)));
       EvCreateSession (S (length (heap w))) (4 + length (heap w))%nat].
Proof.
  intros Hd Hfind Hne Hex.
  eexists. split.
  { rewrite bind_unfold, Driver_new_default.
    rewrite (getDefaultService_unset _ Hd).
    rewrite (default_build_eq _ _ Hfind Hne Hex).
    erewrite Driver_new_no_config_eq.
    2:{ cbn [heap set_defaultService].
        rewrite lookup_app_r by lia.
        by replace (S (length (heap w)) - length (heap w))%nat
          with 1%nat by lia. }
    cbn [heap set_defaultService defaultService trace].
    rewrite Driver_new_default.
    erewrite getDefaultService_stored by reflexivity.
    erewrite Driver_new_no_config_eq.
    2:{ cbn [heap].
        rewrite lookup_app_l
          by (rewrite length_insert, length_app; cbn [length]; lia).
        eapply heap_insert_same.
        rewrite lookup_app_r by lia.
        by replace (S (length (heap w)) - length (heap w))%nat
          with 1%nat by lia. }
    cbn [heap defaultService trace].
    apply (f_equal2 pair); [|reflexivity]. f_equal.
    rewrite !length_app, !length_insert, !length_app. cbn [length]. lia. }
  cbn [heap defaultService trace]. split; [reflexivity|]. split.
  - repeat first [rewrite length_app | rewrite length_insert].
    cbn [length]. lia.
  - repeat first [rewrite length_app | rewrite length_insert].
    cbn [length]. rewrite <- !app_assoc. cbn [app].
    replace (length (heap w) + 2)%nat with (2 + length (heap w))%nat by lia.
    replace (2 + length (heap w) + 2)%nat with (4 + length (heap w))%nat by lia.
    reflexivity.
Qed.

End Properties.

(** * The properties on concrete maps and worlds *)

(** The finite-map reading of the capabilities interface obeys its laws. *)
Lemma MapCapabilities_laws : @CapabilitiesLaws _ MapCapabilities.
Proof.
  split; cbn [caps_get caps_has caps_set MapCapabilities].
  - intros c k v. by rewrite lookup_insert_eq.
  - intros c k v. rewrite lookup_insert_eq. by apply bool_decide_eq_true_2.
  - intros c k k' v Hne. by rewrite lookup_insert_ne.
  - intros c k k' v Hne. by rewrite lookup_insert_ne.
Qed.

(** The second reading obeys what is asked of [get] after [set]. *)
Lemma TruthyCapabilities_get_set (c : gmap string value) k v :
  v ≠ VNull → v ≠ VUndefined →
  @caps_get _ TruthyCapabilities (@caps_set _ TruthyCapabilities c k v) k = v.
Proof.
  intros Hn Hu. cbn [caps_get caps_set TruthyCapabilities].
  destruct v; cbn [neq_null]; try done; by rewrite lookup_insert_eq.
Qed.

Lemma TruthyCapabilities_get_set_ne (c : gmap string value) k k' v :
  k ≠ k' →
  @caps_get _ TruthyCapabilities (@caps_set _ TruthyCapabilities c k v) k' =
    @caps_get _ TruthyCapabilities c k'.
Proof.
  intros Hne. cbn [caps_get caps_set TruthyCapabilities].
  destruct (neq_null v).
  - by rewrite lookup_insert_ne.
  - by rewrite lookup_delete_ne.
Qed.

(** The sample lower-casing is, on strings of ASCII characters, what the
    built-in is taken to be. *)
Lemma toLowerCase_sample_on_ascii : toLowerCase_on_ascii toLowerCase_sample.
Proof. intros s _. reflexivity. Qed.

(** Quitting the driver of [driver_world], whose session quit is rejected:
    the service at 1 is killed all the same. *)
Lemma Driver_quit_after_rejected_session_quit :
  ∃ p w',
    Driver_quit edge_env 3%nat driver_world = (Normal p, w') ∧
    trace w' = trace driver_world ++ [EvSessionQuit 3%nat; EvKill 1%nat].
Proof.
  apply (proj2 (proj2 (@Driver_quit_kills_service_regardless
                         _ MapCapabilities edge_env))
           driver_world 3%nat 1%nat (JsError "session not created")).
  - exists {| drv_service := 1%nat; drv_executor := 1%nat;
              drv_capabilities := 2%nat; drv_flow := None |},
           (edge_service true).
    repeat split; reflexivity.
  - reflexivity.
Defined.

(** Replacing the default service of [service_world]: refused while the
    stored service runs, done when it does not. *)
Lemma setDefaultService_on_service_world :
  setDefaultService None (service_world true) =
    (Throw (JsError still_running_message), service_world true) ∧
  setDefaultService None (service_world false) =
    (Normal tt, set_defaultService None (service_world false)).
Proof.
  split.
  - apply (setDefaultService_refused_while_running (service_world true) None).
    + intros d [= <-]. by exists (edge_service true).
    + exists 1%nat. split; reflexivity.
  - apply (setDefaultService_refused_while_running (service_world false) None).
    + intros d [= <-]. by exists (edge_service false).
    + intros (d & [= <-] & Hrun). vm_compute in Hrun. discriminate Hrun.
Defined.

(** Two Drivers made one after the other in an empty world, with the driver
    executable installed: both hold the default service, at 1. *)
Lemma two_Drivers_share_the_default_service :
  ∃ s dr1 dr2,
    heap (snd (@Driver_new _ MapCapabilities edge_env None None None
                 (snd (@Driver_new _ MapCapabilities edge_env None None None
                         empty_world))))
      !! 3%nat = Some (ODriver dr1) ∧
    heap (snd (@Driver_new _ MapCapabilities edge_env None None None
                 (snd (@Driver_new _ MapCapabilities edge_env None None None
                         empty_world))))
      !! 5%nat = Some (ODriver dr2) ∧
    drv_service dr1 = s ∧ drv_service dr2 = s.
Proof.
  destruct (proj2 (proj2 (proj2 (proj2
              (@getDefaultService_returns_the_stored_instance
                 _ MapCapabilities edge_env empty_world))))
              None None None None 3%nat
              (snd (@Driver_new _ MapCapabilities edge_env None None None
                      empty_world))
              5%nat
              (snd (@Driver_new _ MapCapabilities edge_env None None None
                      (snd (@Driver_new _ MapCapabilities edge_env None None
                              None empty_world)))))
    as (s & dr1 & dr2 & H1 & H2 & H3 & H4 & _).
  - vm_compute. reflexivity.
  - vm_compute. reflexivity.
  - exists s, dr1, dr2. repeat split; assumption.
Defined.

(** [Options.fromCapabilities] on [{pageLoadStrategy: "eager", proxy: ...,
    platform: "WINDOWS"}], then [serialize()]: the page-load strategy only. *)
Lemma fromCapabilities_serialize_eager :
  ∃ options w' json,
    @fromCapabilities _ MapCapabilities 0%nat options_world =
      (Normal options, w') ∧
    serialize options w' = (Normal json, w') ∧
    json !! "pageLoadStrategy" = Some (VStr "eager") ∧
    json !! "platform" = None ∧ json !! "proxy" = None.
Proof.
  destruct (@fromCapabilities_serialize_recognized_non_null
              _ MapCapabilities options_world 0%nat eager_caps eq_refl)
    as (options & w' & json & Hfrom & Hser & Hjson).
  exists options, w', json. split; [exact Hfrom|]. split; [exact Hser|].
  split; [|split].
  - apply Hjson. split; [apply list_elem_of_here|].
    split; [vm_compute; reflexivity|]. split; [vm_compute; reflexivity|].
    split; discriminate.
  - destruct (json !! "platform") as [v|] eqn:E; [|reflexivity].
    apply Hjson in E as [Hin _].
    apply list_elem_of_singleton in Hin. discriminate Hin.
  - destruct (json !! "proxy") as [v|] eqn:E; [|reflexivity].
    apply Hjson in E as [Hin _].
    apply list_elem_of_singleton in Hin. discriminate Hin.
Defined.

(** C4 as first stated ("exactly that subset, no missing keys") fails on
    [{pageLoadStrategy: "", platform: "WINDOWS"}], a map made by two calls
    of [set] on an empty one, when [has(key)] tells whether [get(key)] is
    truthy: the map holds the recognized key pageLoadStrategy, with the
    empty string and [get] answers it, but [has] answers false, nothing is
    copied, and [serialize()] of the Options made from it holds no key at
    all. *)
Lemma fromCapabilities_serialize_loses_empty_strategy :
  @caps_set _ TruthyCapabilities
    (@caps_set _ TruthyCapabilities ∅ "platform" (VStr "WINDOWS"))
    "pageLoadStrategy" (VStr EmptyString) = empty_strategy_caps ∧
  recognized_entries empty_strategy_caps =
    {[ "pageLoadStrategy" := VStr EmptyString ]} ∧
  @caps_get _ TruthyCapabilities empty_strategy_caps "pageLoadStrategy" =
    VStr EmptyString ∧
  @caps_has _ TruthyCapabilities empty_strategy_caps "pageLoadStrategy" =
    false ∧
  fst (bind (@fromCapabilities _ TruthyCapabilities 0%nat) serialize
         empty_strategy_world) = Normal ∅.
Proof. repeat split; vm_compute; reflexivity. Qed.

(** [Options.fromCapabilities] on the capabilities at 0 of [options_world]:
    the map is as before. *)
Lemma fromCapabilities_keeps_eager_caps :
  ∃ options,
    fst (@fromCapabilities _ MapCapabilities 0%nat options_world) =
      Normal options ∧
    heap (snd (@fromCapabilities _ MapCapabilities 0%nat options_world))
      !! 0%nat = Some (OCapabilities eager_caps).
Proof.
  destruct (@fromCapabilities_leaves_capabilities_unchanged
              _ MapCapabilities options_world 0%nat)
    as (o' & calls & _ & _ & _ & Hkeep).
  exact (Hkeep eager_caps eq_refl).
Defined.


(** [setPageLoadStrategy("EAGER")] on the Options at 1 of [options_world]. *)
Lemma setPageLoadStrategy_EAGER :
  (∃ w',
     setPageLoadStrategy toLowerCase_sample 1%nat "EAGER" options_world =
       (Normal 1%nat, w') ∧
     serialize 1%nat w' =
       (Normal {["pageLoadStrategy" := VStr "eager"]}, w')) ∧
  has_upper (toLowerCase_sample "EAGER") = false ∧
  String.length (toLowerCase_sample "EAGER") = 5%nat.
Proof.
  destruct (setPageLoadStrategy_stores_lower_case toLowerCase_sample
              options_world 1%nat
              {| options_ := {["pageLoadStrategy" := VStr "normal"]};
                 proxy_ := VRef 7%nat |} "EAGER" eq_refl)
    as [_ Hlower].
  destruct (Hlower toLowerCase_sample_on_ascii) as [Hstored Heager].
  destruct (Hstored eq_refl) as (Hup & Hlen & _).
  split; [|split; [exact Hup | exact Hlen]].
  apply Heager. intros k Hk. by apply lookup_singleton_ne.
Defined.

(** [serialize()] of the Options of [nullish_settings_world], which holds
    a proxy and two settings without a value: the strategy alone, also after
    another proxy was set. *)
Lemma serialize_nullish_settings_world :
  ∃ w',
    serialize 0%nat nullish_settings_world =
      (Normal {["pageLoadStrategy" := VStr "normal"]},
       nullish_settings_world) ∧
    ({["pageLoadStrategy" := VStr "normal"]} : gmap string value)
      !! "proxy" = None ∧
    setProxy 0%nat (VRef 9%nat) nullish_settings_world = (Normal 0%nat, w') ∧
    serialize 0%nat w' =
      (Normal {["pageLoadStrategy" := VStr "normal"]}, w').
Proof.
  destruct (@serialize_non_null_settings_without_proxy
              _ MapCapabilities nullish_settings_world 0%nat
              {| options_ := {[ "pageLoadStrategy" := VStr "normal";
                                "nativeEvents" := VNull;
                                "timeout" := VUndefined ]};
                 proxy_ := VRef 7%nat |} eq_refl)
    as (json & Hser & Hjson & Hproxy & Hset & _).
  assert (Heq : json = {["pageLoadStrategy" := VStr "normal"]}).
  { apply map_eq. intros k. apply option_eq. intros v.
    rewrite Hjson. cbn [options_].
    rewrite !lookup_insert_Some, !lookup_singleton_Some.
    split.
    - intros (Hk & Hn & Hu).
      destruct Hk as [[<- <-]|[_ [[<- <-]|[_ [<- <-]]]]].
      + split; reflexivity.
      + exfalso. apply Hn. reflexivity.
      + exfalso. apply Hu. reflexivity.
    - intros [<- <-]. split; [left; split; reflexivity|].
      split; discriminate. }
  destruct (Hset (VRef 9%nat)) as (w' & Hrun & _ & Hser').
  exists w'. rewrite <- Heq.
  split; [exact Hser|]. split; [|split; [exact Hrun | exact Hser']].
  apply Hproxy. vm_compute. reflexivity.
Defined.


(** [usingPort(-1)] on the builder at 0 of [service_world]. *)
Lemma usingPort_minus_one :
  usingPort 0%nat (-1) (service_world false) =
    (Throw (JsError "port must be >= 0: -1"), service_world false).
Proof.
  apply (proj1 (usingPort_rejects_negative_and_zero_probes edge_env
                  (service_world false) 0%nat edge_builder (-1) eq_refl)).
  reflexivity.
Defined.

(** * The further properties on concrete maps and worlds *)

(** [setProxy(null)] and then [toCapabilities(base)] on [options_world]: the
    proxy capability of the base is still the object 7. *)
Lemma setProxy_null_keeps_the_proxy_of_the_base :
  ∃ c' w',
    bind (setProxy 1%nat VNull)
      (λ t, @toCapabilities _ MapCapabilities t (Some 0%nat)) options_world =
      (Normal 0%nat, w') ∧
    heap w' !! 0%nat = Some (OCapabilities c') ∧
    @caps_get _ MapCapabilities c' "proxy" = VRef 7%nat.
Proof.
  assert (Hkey : options_ {| options_ := {["pageLoadStrategy" := VStr "normal"]};
                             proxy_ := VRef 7%nat |}
                   !! @PROXY _ MapCapabilities = None)
    by (vm_compute; reflexivity).
  destruct (@setProxy_then_toCapabilities _ MapCapabilities options_world
              1%nat _ 0%nat eager_caps VNull MapCapabilities_laws
              eq_refl eq_refl Hkey)
    as (c' & w' & Hrun & Hbase & _ & _ & _ & Hfalsy).
  exists c', w'. split; [exact Hrun|]. split; [exact Hbase|].
  destruct (Hfalsy eq_refl) as [Hget _].
  change (@caps_get _ MapCapabilities c' "proxy" =
          @caps_get _ MapCapabilities eager_caps "proxy").
  exact Hget.
Defined.

(** The two setters in either order on the Options of [options_world]. *)
Lemma setters_in_either_order_on_options_world :
  bind (setProxy 1%nat VNull)
    (λ t, setPageLoadStrategy toLowerCase_sample t "None") options_world =
  bind (setPageLoadStrategy toLowerCase_sample 1%nat "None")
    (λ t, setProxy t VNull) options_world.
Proof.
  exact (proj1 (setProxy_setPageLoadStrategy_commute toLowerCase_sample
                  options_world 1%nat
                  {| options_ := {["pageLoadStrategy" := VStr "normal"]};
                     proxy_ := VRef 7%nat |} VNull "None" eq_refl)).
Defined.

(** ["Eager"] and then ["NONE"] on the Options of [options_world], and
    ["Eager"] against ["eager"] and ["EAGER"]. *)
Lemma setPageLoadStrategy_Eager_then_NONE :
  bind (setPageLoadStrategy toLowerCase_sample 1%nat "Eager")
    (λ t, setPageLoadStrategy toLowerCase_sample t "NONE") options_world =
    setPageLoadStrategy toLowerCase_sample 1%nat "NONE" options_world ∧
  setPageLoadStrategy toLowerCase_sample 1%nat "eager" options_world =
    setPageLoadStrategy toLowerCase_sample 1%nat "Eager" options_world ∧
  setPageLoadStrategy toLowerCase_sample 1%nat "Eager" options_world =
    setPageLoadStrategy toLowerCase_sample 1%nat "EAGER" options_world.
Proof.
  destruct (setPageLoadStrategy_normalizes_and_overrides toLowerCase_sample
              options_world 1%nat
              {| options_ := {["pageLoadStrategy" := VStr "normal"]};
                 proxy_ := VRef 7%nat |} "Eager" "NONE" eq_refl)
    as [Hlast Hcase].
  destruct (Hcase toLowerCase_sample_on_ascii eq_refl) as [Hlower _].
  destruct (setPageLoadStrategy_normalizes_and_overrides toLowerCase_sample
              options_world 1%nat
              {| options_ := {["pageLoadStrategy" := VStr "normal"]};
                 proxy_ := VRef 7%nat |} "Eager" "EAGER" eq_refl)
    as [_ Hcase'].
  destruct (Hcase' toLowerCase_sample_on_ascii eq_refl) as [_ Hsame].
  split; [exact Hlast|]. split; [exact Hlower|].
  exact (Hsame eq_refl eq_refl).
Defined.

(** Three setter calls on the Options of [options_world]. *)
Lemma setters_on_options_world_keep_only_the_strategy :
  ∃ o' json,
    forEach [CallSetProxy VNull; CallSetPageLoadStrategy "Eager";
             CallSetProxy (VRef 7%nat)]
      (call_setter toLowerCase_sample 1%nat) options_world =
      (Normal tt,
       set_heap (<[1%nat := OOptions o']> (heap options_world)) options_world) ∧
    only_strategy o' ∧
    serialize 1%nat
      (set_heap (<[1%nat := OOptions o']> (heap options_world)) options_world) =
      (Normal json,
       set_heap (<[1%nat := OOptions o']> (heap options_world)) options_world) ∧
    ∀ k v, json !! k = Some v → k = PAGE_LOAD_STRATEGY.
Proof.
  apply (proj2 (proj2 (@Options_settings_hold_only_the_strategy
                         _ MapCapabilities toLowerCase_sample options_world))
           [CallSetProxy VNull; CallSetPageLoadStrategy "Eager";
            CallSetProxy (VRef 7%nat)] 1%nat
           {| options_ := {["pageLoadStrategy" := VStr "normal"]};
              proxy_ := VRef 7%nat |} eq_refl).
  intros k Hk. cbn [options_]. by apply lookup_singleton_ne.
Defined.

(** The Options of [options_world] through its capabilities and back. *)
Lemma round_trip_on_options_world :
  ∃ options w',
    bind (@toCapabilities _ MapCapabilities 1%nat (Some 0%nat))
      (@fromCapabilities _ MapCapabilities) options_world =
      (Normal options, w') ∧
    options ≠ 1%nat ∧
    heap w' !! options =
      Some (OOptions {| options_ := {["pageLoadStrategy" := VStr "normal"]};
                        proxy_ := VRef 7%nat |}) ∧
    heap w' !! 1%nat =
      Some (OOptions {| options_ := {["pageLoadStrategy" := VStr "normal"]};
                        proxy_ := VRef 7%nat |}).
Proof.
  pose proof (@toCapabilities_fromCapabilities_round_trip _ MapCapabilities
                options_world 1%nat
                {| options_ := {["pageLoadStrategy" := VStr "normal"]};
                   proxy_ := VRef 7%nat |} 0%nat eager_caps (VStr "normal")
                MapCapabilities_laws) as Hround.
  cbn [options_ proxy_] in Hround. apply Hround.
  - intros Heq. discriminate Heq.
  - reflexivity.
  - reflexivity.
  - reflexivity.
  - reflexivity.
Defined.

(** [fromCapabilities] on the capabilities of [options_world], which have
    both keys: four calls. *)
Lemma fromCapabilities_calls_on_eager_caps :
  ∃ o w',
    @fromCapabilities _ MapCapabilities 0%nat options_world =
      (Normal 2%nat, w') ∧
    heap w' = heap options_world ++ [OOptions o] ∧
    trace w' = [EvHas 0%nat "pageLoadStrategy"; EvGet 0%nat "pageLoadStrategy";
                EvHas 0%nat "proxy"; EvGet 0%nat "proxy"] ∧
    proxy_ o = VRef 7%nat.
Proof.
  destruct (@fromCapabilities_reads_only_what_the_map_has _ MapCapabilities
              options_world 0%nat eager_caps eq_refl)
    as (o & w' & Hrun & Hheap & Htrace & _ & Hproxy & _).
  exists o, w'. split; [exact Hrun|]. split; [exact Hheap|].
  split; [rewrite Htrace; vm_compute; reflexivity|].
  rewrite Hproxy. vm_compute. reflexivity.
Defined.

(** The documented chain [usingPort(55555)] and the other setters on the
    builder of [service_world]. *)
Lemma builder_chain_on_service_world :
  bind (withEnvironment 0%nat ∅)
    (λ t, bind (setStdio t (StdioName "inherit"))
            (λ t', usingPort t' 55555)) (service_world false) =
  bind (usingPort 0%nat 55555)
    (λ t, bind (setStdio t (StdioName "inherit"))
            (λ t', withEnvironment t' ∅)) (service_world false).
Proof.
  apply (ServiceBuilder_setters_chain_in_any_order (service_world false) 0%nat
           edge_builder 55555 (StdioName "inherit") ∅ eq_refl).
  discriminate.
Defined.


(** Two [build()] calls on the builder of [service_world], whose port is 0:
    two probes. *)
Lemma two_builds_on_service_world :
  ∃ s1 s2 w',
    bind (build edge_env 0%nat) (λ _, build edge_env 0%nat)
      (service_world false) = (Normal 3%nat, w') ∧
    trace w' = [EvFindFreePort (ds_port s1); EvFindFreePort (ds_port s2)].
Proof.
  destruct (build_twice edge_env (service_world false) 0%nat edge_builder
              eq_refl)
    as (s1 & s2 & w' & Hrun & _ & _ & Hzero).
  exists s1, s2, w'. split; [exact Hrun|]. exact (Hzero eq_refl).
Defined.

(** Storing the service at 1 as the default service of [service_world],
    whose service is not running, without any executable installed. *)
Lemma stored_default_service_is_returned_on_service_world :
  bind (setDefaultService (Some 1%nat)) (λ _, getDefaultService bare_env)
    (service_world false) =
  (Normal 1%nat, set_defaultService (Some 1%nat) (service_world false)).
Proof.
  apply (setDefaultService_then_getDefaultService bare_env
           (service_world false) 1%nat).
  - intros d [= <-]. by exists (edge_service false).
  - intros (d & [= <-] & Hrun). vm_compute in Hrun. discriminate Hrun.
Defined.

(** [new Driver()] in an empty world without the executable. *)
Lemma Driver_new_without_the_executable :
  @Driver_new _ MapCapabilities bare_env None None None empty_world =
  (Throw (JsError exe_not_found_message), empty_world).
Proof.
  exact (proj2 (@default_service_needs_the_executable _ MapCapabilities
                  bare_env empty_world None None eq_refl eq_refl)).
Defined.

(** Resetting the default service of [service_world] with the executable
    installed: the next one is at 3, not at 1. *)
Lemma reset_on_service_world :
  ∃ s sv w',
    bind (setDefaultService None) (λ _, getDefaultService edge_env)
      (service_world false) = (Normal s, w') ∧
    heap (service_world false) !! s = None ∧
    defaultService (service_world false) ≠ Some s ∧
    heap w' !! s = Some (ODriverService sv) ∧
    ds_exe sv = "/opt/edge/MicrosoftWebDriver.exe" ∧ ds_running sv = false ∧
    defaultService w' = Some s.
Proof.
  apply (resetting_the_default_service_builds_a_new_one edge_env
           (service_world false) "/opt/edge/MicrosoftWebDriver.exe").
  - intros d [= <-]. by exists (edge_service false).
  - intros (d & [= <-] & Hrun). vm_compute in Hrun. discriminate Hrun.
  - vm_compute. reflexivity.
  - intros Heq. discriminate Heq.
  - vm_compute. reflexivity.
Defined.

(** [toCapabilities(base)] twice on [options_world]. *)
Lemma repeated_toCapabilities_on_options_world :
  ∃ c' c'' w1 w2,
    @toCapabilities _ MapCapabilities 1%nat (Some 0%nat) options_world =
      (Normal 0%nat, w1) ∧
    heap w1 !! 0%nat = Some (OCapabilities c') ∧
    @toCapabilities _ MapCapabilities 1%nat (Some 0%nat) w1 =
      (Normal 0%nat, w2) ∧
    heap w2 = <[0%nat := OCapabilities c'']> (heap options_world) ∧
    ∀ k, @caps_get _ MapCapabilities c'' k = @caps_get _ MapCapabilities c' k.
Proof.
  destruct (@toCapabilities_twice _ MapCapabilities options_world 1%nat
              {| options_ := {["pageLoadStrategy" := VStr "normal"]};
                 proxy_ := VRef 7%nat |} 0%nat eager_caps
              MapCapabilities_laws eq_refl eq_refl)
    as (c' & c'' & w1 & w2 & H1 & Hc' & H2 & Hheap & _ & _ & Hsame).
  exists c', c'', w1, w2. repeat (split; [assumption|]).
  intros k. exact (proj1 (Hsame k)).
Defined.

(** [new Driver(options, service)] with the Options and the service of
    [config_world], no executable being installed: the session gets a new
    map, at 3, on which the proxy and the strategy were set. *)
Lemma Driver_new_with_the_options_of_config_world :
  ∃ c',
    @Driver_new _ MapCapabilities bare_env (Some 1%nat) (Some 2%nat) None
      config_world =
      (Normal 4%nat,
       {| heap := <[2%nat := ODriverService (edge_service true)]>
                    (heap config_world) ++
            [OCapabilities c';
             ODriver {| drv_service := 2%nat; drv_executor := 2%nat;
                        drv_capabilities := 3%nat; drv_flow := None |}];
          defaultService := None;
          trace := [EvStart 2%nat; EvCreateExecutor 2%nat;
                    EvSet 3%nat "proxy" (VRef 7%nat);
                    EvSet 3%nat "pageLoadStrategy" (VStr "normal");
                    EvCreateSession 2%nat 3%nat] |}).
Proof.
  destruct (proj2 (proj2 (@Driver_new_resolves_capabilities _ MapCapabilities
                            bare_env config_world 2%nat (edge_service false)
                            None eq_refl))
              1%nat
              {| options_ := {["pageLoadStrategy" := VStr "normal"]};
                 proxy_ := VRef 7%nat |} eq_refl)
    as (c' & Hnew & _).
  exists c'. exact Hnew.
Defined.

(** [quit()] on the Driver of [driver_world], which holds the default
    service. *)
Lemma Driver_quit_on_driver_world_keeps_the_default_service :
  ∃ r w',
    Driver_quit edge_env 3%nat driver_world = (r, w') ∧
    defaultService w' = Some 1%nat ∧
    is_driver w' 3%nat 1%nat ∧
    getDefaultService edge_env w' = (Normal 1%nat, w').
Proof.
  apply (Driver_quit_keeps_the_default_service edge_env driver_world
           3%nat 1%nat
           (ex_intro _ {| drv_service := 1%nat; drv_executor := 1%nat;
                          drv_capabilities := 2%nat; drv_flow := None |}
              (ex_intro _ (edge_service true)
                 (conj eq_refl (conj eq_refl eq_refl))))
           eq_refl).
Defined.

(** [toCapabilities(base)] of the new Options of [new_options_world], the
    base being an address that holds no object. *)
Lemma toCapabilities_of_new_Options_returns_the_base :
  @toCapabilities _ MapCapabilities 0%nat (Some 9%nat) new_options_world =
  (Normal 9%nat, new_options_world).
Proof.
  exact (@toCapabilities_of_empty_Options_is_identity _ MapCapabilities
           new_options_world 0%nat {| options_ := ∅; proxy_ := VNull |} 9%nat
           eq_refl eq_refl eq_refl).
Defined.

(** [setPageLoadStrategy("EAGER")] and then [toCapabilities(base)] on
    [options_world], with the second reading of the capabilities map. *)
Lemma EAGER_strategy_reaches_the_base :
  ∃ c' w',
    bind (setPageLoadStrategy toLowerCase_sample 1%nat "EAGER")
      (λ t, @toCapabilities _ TruthyCapabilities t (Some 0%nat))
      options_world = (Normal 0%nat, w') ∧
    heap w' !! 0%nat = Some (OCapabilities c') ∧
    @caps_get _ TruthyCapabilities c' "pageLoadStrategy" = VStr "eager".
Proof.
  exact (@setPageLoadStrategy_then_toCapabilities _ TruthyCapabilities
           toLowerCase_sample options_world 1%nat
           {| options_ := {["pageLoadStrategy" := VStr "normal"]};
              proxy_ := VRef 7%nat |} 0%nat eager_caps "EAGER"
           TruthyCapabilities_get_set TruthyCapabilities_get_set_ne
           eq_refl eq_refl).
Defined.

(** [fromCapabilities] of the capabilities of [options_world] and then
    [toCapabilities] onto them. *)
Lemma fromCapabilities_then_toCapabilities_on_eager_caps :
  ∃ c' w',
    bind (@fromCapabilities _ MapCapabilities 0%nat)
      (λ options, @toCapabilities _ MapCapabilities options (Some 0%nat))
      options_world = (Normal 0%nat, w') ∧
    heap w' !! 0%nat = Some (OCapabilities c') ∧
    ∀ k, @caps_get _ MapCapabilities c' k =
           @caps_get _ MapCapabilities eager_caps k ∧
         @caps_has _ MapCapabilities c' k =
           @caps_has _ MapCapabilities eager_caps k.
Proof.
  apply (@fromCapabilities_then_toCapabilities_changes_nothing
           _ MapCapabilities options_world 0%nat eager_caps
           MapCapabilities_laws).
  - intros Heq. discriminate Heq.
  - reflexivity.
Defined.

(** Two [new Driver()] in an empty world with the executable installed. *)
Lemma two_Drivers_in_the_empty_world :
  ∃ w',
    bind (@Driver_new _ MapCapabilities edge_env None None None)
      (λ _, @Driver_new _ MapCapabilities edge_env None None None)
      empty_world = (Normal 5%nat, w') ∧
    defaultService w' = Some 1%nat ∧
    length (heap w') = 6%nat ∧
    trace w' =
      [EvFindFreePort 49152; EvStart 1%nat; EvCreateExecutor 1%nat;
       EvCreateSession 1%nat 2%nat; EvStart 1%nat; EvCreateExecutor 1%nat;
       EvCreateSession 1%nat 4%nat].
Proof.
  apply (@two_Drivers_start_the_default_service_twice _ MapCapabilities
           edge_env empty_world "/opt/edge/MicrosoftWebDriver.exe" None None).
  - reflexivity.
  - vm_compute. reflexivity.
  - intros Heq. discriminate Heq.
  - vm_compute. reflexivity.
Defined.
